(** * Local traffic detectors of pkg/proxy/util/iptables/traffic.go

    A shallow embedding of the Go package [iptables] (file traffic.go): the
    [LocalTrafficDetector] interface, its four implementations and their
    constructors, followed by the properties the specification states about
    them.

    Conventions of the embedding:
    - a Go [string] is a [string] (a sequence of 8-bit characters), [len] is
      its number of bytes, [+] is [append];
    - a Go [[]string] is a [list string]; the [nil] slice and the empty slice
      are both [[]];
    - a Go [int] is a [Z] (every integer the code computes stays far below
      2^63), a Go [byte] is a [Z] in [0, 256);
    - a Go result pair [(T, error)] is a pair of options, [None] standing for
      [nil], exactly as the code returns it: [(nil, err)] or [(d, nil)];
    - a method with a pointer receiver is a computation in the state monad
      over the receiver's struct, so that what a call returns and what it
      leaves behind in the receiver are both visible. *)

From Stdlib Require Import String Ascii List ZArith Lia Bool.
From ExtLib Require Import Structures.Monad Structures.MonadState.
From ExtLib Require Import Data.Monads.StateMonad.
Import ListNotations.
Import MonadNotation.

Local Open Scope string_scope.
Local Open Scope monad_scope.

(** ** Go values *)

(** [len(s)] of a Go string. *)
Definition len (s : string) : Z := Z.of_nat (String.length s).

(** The two dynamic types of [error] that reach the callers of this package:
    [*net.ParseError] (fields [Type] and [Text]), made by the CIDR parser, and
    the [*errors.errorString] that [fmt.Errorf] makes from a format without
    verbs. The specification calls the second one [InvalidConfigError]. *)
Inductive error : Type :=
| ParseError (Type_ Text : string)
| errorString (s : string).

(** [fmt.Errorf(format)] for a format string without verbs. *)
Definition Errorf (format : string) : error := errorString format.

(** [err.Error()]. *)
Definition Error (e : error) : string :=
  match e with
  | ParseError ty text => "invalid " ++ ty ++ ": " ++ text
  | errorString s => s
  end.

(** [net.IP] and [net.IPMask] are byte slices, [net.IPNet] a struct of both. *)
Definition byte : Type := Z.
Definition IP : Type := list byte.
Definition IPMask : Type := list byte.

Record IPNet : Type := mkIPNet { IPNet_IP : IP; IPNet_Mask : IPMask }.

(** ** The imported package [netutils] (k8s.io/utils/net)

    traffic.go calls two functions of it. Their signatures are all the
    detector code depends on, so they are an interface here; an instance
    that follows the library is given further down ([netutils_go]). *)
Class NetUtils : Type := {
  (** [func ParseCIDRSloppy(cidrStr string) (net.IP, *net.IPNet, error)] *)
  ParseCIDRSloppy : string -> IP * option IPNet * option error;
  (** [func IsIPv6CIDR(cidr *net.IPNet) bool] *)
  IsIPv6CIDR : option IPNet -> bool
}.

(** ** The four implementations of [LocalTrafficDetector] *)

(** [type noOpLocalDetector struct{}] and its methods (lines 44-69). *)
Module noOpLocalDetector.

Record t : Type := mk { }.

Definition IsImplemented : state t bool :=
  n <- get ;; ret false.

Definition IfLocal : state t (list string) :=
  n <- get ;; ret [].

Definition IfNotLocal : state t (list string) :=
  n <- get ;; ret [].

Definition IfLocalNFT : state t (list string) :=
  n <- get ;; ret [].

Definition IfNotLocalNFT : state t (list string) :=
  n <- get ;; ret [].

End noOpLocalDetector.

(** [type detectLocalByCIDR struct] and its methods (lines 71-76, 99-117). *)
Module detectLocalByCIDR.

Record t : Type := mk {
  ifLocal : list string;
  ifNotLocal : list string;
  ifLocalNFT : list string;
  ifNotLocalNFT : list string
}.

Definition IsImplemented : state t bool :=
  d <- get ;; ret true.

Definition IfLocal : state t (list string) :=
  d <- get ;; ret (ifLocal d).

Definition IfNotLocal : state t (list string) :=
  d <- get ;; ret (ifNotLocal d).

Definition IfLocalNFT : state t (list string) :=
  d <- get ;; ret (ifLocalNFT d).

Definition IfNotLocalNFT : state t (list string) :=
  d <- get ;; ret (ifNotLocalNFT d).

End detectLocalByCIDR.

(** [type detectLocalByBridgeInterface struct] and its methods
    (lines 119-124, 140-158). *)
Module detectLocalByBridgeInterface.

Record t : Type := mk {
  ifLocal : list string;
  ifNotLocal : list string;
  ifLocalNFT : list string;
  ifNotLocalNFT : list string
}.

Definition IsImplemented : state t bool :=
  d <- get ;; ret true.

Definition IfLocal : state t (list string) :=
  d <- get ;; ret (ifLocal d).

Definition IfNotLocal : state t (list string) :=
  d <- get ;; ret (ifNotLocal d).

Definition IfLocalNFT : state t (list string) :=
  d <- get ;; ret (ifLocalNFT d).

Definition IfNotLocalNFT : state t (list string) :=
  d <- get ;; ret (ifNotLocalNFT d).

End detectLocalByBridgeInterface.

(** [type detectLocalByInterfaceNamePrefix struct] and its methods
    (lines 160-165, 182-200). *)
Module detectLocalByInterfaceNamePrefix.

Record t : Type := mk {
  ifLocal : list string;
  ifNotLocal : list string;
  ifLocalNFT : list string;
  ifNotLocalNFT : list string
}.

Definition IsImplemented : state t bool :=
  d <- get ;; ret true.

Definition IfLocal : state t (list string) :=
  d <- get ;; ret (ifLocal d).

Definition IfNotLocal : state t (list string) :=
  d <- get ;; ret (ifNotLocal d).

Definition IfLocalNFT : state t (list string) :=
  d <- get ;; ret (ifLocalNFT d).

Definition IfNotLocalNFT : state t (list string) :=
  d <- get ;; ret (ifNotLocalNFT d).

End detectLocalByInterfaceNamePrefix.

(** ** The interface [LocalTrafficDetector] (lines 27-42)

    A value of the interface is a pointer to one of the four structs
    above, tagged with its dynamic type; a method call dispatches on the
    tag. *)
Inductive LocalTrafficDetector : Type :=
| NoOp (n : noOpLocalDetector.t)
| ByCIDR (d : detectLocalByCIDR.t)
| ByBridgeInterface (d : detectLocalByBridgeInterface.t)
| ByInterfaceNamePrefix (d : detectLocalByInterfaceNamePrefix.t).

(** Runs a method of the struct [T] on the value an interface holds and
    puts the receiver it leaves behind back under the same tag. *)
Definition dispatch {T A : Type} (tag : T -> LocalTrafficDetector)
    (m : state T A) (x : T) : A * LocalTrafficDetector :=
  let (a, x') := runState m x in (a, tag x').

Definition IsImplemented : state LocalTrafficDetector bool :=
  mkState (fun l =>
    match l with
    | NoOp n => dispatch NoOp noOpLocalDetector.IsImplemented n
    | ByCIDR d => dispatch ByCIDR detectLocalByCIDR.IsImplemented d
    | ByBridgeInterface d =>
        dispatch ByBridgeInterface detectLocalByBridgeInterface.IsImplemented d
    | ByInterfaceNamePrefix d =>
        dispatch ByInterfaceNamePrefix
          detectLocalByInterfaceNamePrefix.IsImplemented d
    end).

Definition IfLocal : state LocalTrafficDetector (list string) :=
  mkState (fun l =>
    match l with
    | NoOp n => dispatch NoOp noOpLocalDetector.IfLocal n
    | ByCIDR d => dispatch ByCIDR detectLocalByCIDR.IfLocal d
    | ByBridgeInterface d =>
        dispatch ByBridgeInterface detectLocalByBridgeInterface.IfLocal d
    | ByInterfaceNamePrefix d =>
        dispatch ByInterfaceNamePrefix
          detectLocalByInterfaceNamePrefix.IfLocal d
    end).

Definition IfNotLocal : state LocalTrafficDetector (list string) :=
  mkState (fun l =>
    match l with
    | NoOp n => dispatch NoOp noOpLocalDetector.IfNotLocal n
    | ByCIDR d => dispatch ByCIDR detectLocalByCIDR.IfNotLocal d
    | ByBridgeInterface d =>
        dispatch ByBridgeInterface detectLocalByBridgeInterface.IfNotLocal d
    | ByInterfaceNamePrefix d =>
        dispatch ByInterfaceNamePrefix
          detectLocalByInterfaceNamePrefix.IfNotLocal d
    end).

Definition IfLocalNFT : state LocalTrafficDetector (list string) :=
  mkState (fun l =>
    match l with
    | NoOp n => dispatch NoOp noOpLocalDetector.IfLocalNFT n
    | ByCIDR d => dispatch ByCIDR detectLocalByCIDR.IfLocalNFT d
    | ByBridgeInterface d =>
        dispatch ByBridgeInterface detectLocalByBridgeInterface.IfLocalNFT d
    | ByInterfaceNamePrefix d =>
        dispatch ByInterfaceNamePrefix
          detectLocalByInterfaceNamePrefix.IfLocalNFT d
    end).

Definition IfNotLocalNFT : state LocalTrafficDetector (list string) :=
  mkState (fun l =>
    match l with
    | NoOp n => dispatch NoOp noOpLocalDetector.IfNotLocalNFT n
    | ByCIDR d => dispatch ByCIDR detectLocalByCIDR.IfNotLocalNFT d
    | ByBridgeInterface d =>
        dispatch ByBridgeInterface detectLocalByBridgeInterface.IfNotLocalNFT d
    | ByInterfaceNamePrefix d =>
        dispatch ByInterfaceNamePrefix
          detectLocalByInterfaceNamePrefix.IfNotLocalNFT d
    end).

(** ** Constructors *)

(** [func NewNoOpLocalDetector() LocalTrafficDetector] (lines 47-49). *)
Definition NewNoOpLocalDetector : LocalTrafficDetector :=
  NoOp noOpLocalDetector.mk.

(** [func NewDetectLocalByCIDR(cidr string) (LocalTrafficDetector, error)]
    (lines 80-97). *)
Definition NewDetectLocalByCIDR `{NU : NetUtils} (cidr : string)
    : option LocalTrafficDetector * option error :=
  let '(_, parsed, err) := ParseCIDRSloppy cidr in
  match err with
  | Some e => (None, Some e)
  | None =>
      let nftFamily := "ip" in
      let nftFamily := if IsIPv6CIDR parsed then "ip6" else nftFamily in
      (Some (ByCIDR {|
         detectLocalByCIDR.ifLocal := ["-s"; cidr];
         detectLocalByCIDR.ifNotLocal := ["!"; "-s"; cidr];
         detectLocalByCIDR.ifLocalNFT := [nftFamily; "saddr"; cidr];
         detectLocalByCIDR.ifNotLocalNFT := [nftFamily; "saddr"; "!="; cidr]
       |}), None)
  end.

(** [func NewDetectLocalByBridgeInterface(interfaceName string)
    (LocalTrafficDetector, error)] (lines 128-138). *)
Definition NewDetectLocalByBridgeInterface (interfaceName : string)
    : option LocalTrafficDetector * option error :=
  if (len interfaceName =? 0)%Z then
    (None, Some (Errorf "no bridge interface name set"))
  else
    (Some (ByBridgeInterface {|
       detectLocalByBridgeInterface.ifLocal := ["-i"; interfaceName];
       detectLocalByBridgeInterface.ifNotLocal := ["!"; "-i"; interfaceName];
       detectLocalByBridgeInterface.ifLocalNFT := ["iif"; interfaceName];
       detectLocalByBridgeInterface.ifNotLocalNFT :=
         ["iif"; "!="; interfaceName]
     |}), None).

(** [func NewDetectLocalByInterfaceNamePrefix(interfacePrefix string)
    (LocalTrafficDetector, error)] (lines 170-180). *)
Definition NewDetectLocalByInterfaceNamePrefix (interfacePrefix : string)
    : option LocalTrafficDetector * option error :=
  if (len interfacePrefix =? 0)%Z then
    (None, Some (Errorf "no interface prefix set"))
  else
    (Some (ByInterfaceNamePrefix {|
       detectLocalByInterfaceNamePrefix.ifLocal :=
         ["-i"; interfacePrefix ++ "+"];
       detectLocalByInterfaceNamePrefix.ifNotLocal :=
         ["!"; "-i"; interfacePrefix ++ "+"];
       detectLocalByInterfaceNamePrefix.ifLocalNFT :=
         ["iif"; interfacePrefix ++ "*"];
       detectLocalByInterfaceNamePrefix.ifNotLocalNFT :=
         ["iif"; "!="; interfacePrefix ++ "*"]
     |}), None).

(** ** A model of the imported parser *)

(** Modelled from the spec: the package [netutils] (k8s.io/utils/net) that
    traffic.go imports, and the fork of Go's [net] parser it wraps, are
    not under src/. The specification only says that the CIDR string is
    parsed as a network prefix, that the parse fails with a [ParseError]
    when the string is not an address/prefix-length pair, and that the
    family of the parsed prefix is v4 or v6. The definitions of this
    module spell that out the way the library does: [ParseCIDR] is Go's
    [net.ParseCIDR] without the rejection of leading zeros in
    dotted-decimal octets. *)
Module forkednet.

Local Open Scope Z_scope.

Definition IPv4len : Z := 4.
Definition IPv6len : Z := 16.

(** Bigger than needed, not too big to worry about overflow. *)
Definition big : Z := 0xFFFFFF.

(** [s[i]] for [0 <= i < len(s)]; [None] outside of the string. *)
Definition index (s : string) (i : Z) : option ascii :=
  if i <? 0 then None else String.get (Z.to_nat i) s.

(** [s[i:]]. *)
Fixpoint drop (n : nat) (s : string) : string :=
  match n, s with
  | O, _ => s
  | S n', String _ s' => drop n' s'
  | S _, EmptyString => EmptyString
  end.

Definition slice_from (s : string) (i : Z) : string := drop (Z.to_nat i) s.

(** [s[:i]]. *)
Fixpoint take (n : nat) (s : string) : string :=
  match n, s with
  | O, _ => EmptyString
  | S n', String c s' => String c (take n' s')
  | S _, EmptyString => EmptyString
  end.

Definition slice_to (s : string) (i : Z) : string := take (Z.to_nat i) s.

(** [s[i] == c], false outside of the string. *)
Definition index_is (s : string) (i : Z) (c : ascii) : bool :=
  match index s i with
  | Some c' => Ascii.eqb c' c
  | None => false
  end.

(** The code of a character, as Go's [int(s[i])]. *)
Definition code (c : ascii) : Z := Z.of_N (N_of_ascii c).

Definition between (lo hi c : ascii) : bool :=
  (code lo <=? code c) && (code c <=? code hi).

(** [strings.IndexByte(s, c)]: the index of the first [c] in [s], or -1. *)
Fixpoint IndexByte (s : string) (c : ascii) : Z :=
  match s with
  | EmptyString => -1
  | String c' s' =>
      if Ascii.eqb c' c then 0
      else let i := IndexByte s' c in if i <? 0 then -1 else i + 1
  end.

(** The loop of [dtoi]: [n] is the number read so far and [i] the number
    of characters read. *)
Fixpoint dtoi_loop (s : string) (n i : Z) : Z * Z * bool :=
  match s with
  | String c s' =>
      if between "0" "9" c then
        let n := n * 10 + (code c - code "0") in
        if big <=? n then (big, i, false)
        else dtoi_loop s' n (i + 1)
      else if i =? 0 then (0, 0, false) else (n, i, true)
  | EmptyString => if i =? 0 then (0, 0, false) else (n, i, true)
  end.

(** Modelled from the spec: the library's
    [func dtoi(s string) (n int, i int, ok bool)] (not under src/):
    decimal to integer; returns number, characters consumed, success. *)
Definition dtoi (s : string) : Z * Z * bool := dtoi_loop s 0 0.

(** The value of a hexadecimal digit, if [c] is one. *)
Definition xdigit (c : ascii) : option Z :=
  if between "0" "9" c then Some (code c - code "0")
  else if between "a" "f" c then Some (code c - code "a" + 10)
  else if between "A" "F" c then Some (code c - code "A" + 10)
  else None.

Fixpoint xtoi_loop (s : string) (n i : Z) : Z * Z * bool :=
  match s with
  | String c s' =>
      match xdigit c with
      | Some d =>
          let n := n * 16 + d in
          if big <=? n then (0, i, false)
          else xtoi_loop s' n (i + 1)
      | None => if i =? 0 then (0, i, false) else (n, i, true)
      end
  | EmptyString => if i =? 0 then (0, i, false) else (n, i, true)
  end.

(** Modelled from the spec: the library's
    [func xtoi(s string) (n int, i int, ok bool)] (not under src/):
    hexadecimal to integer; returns number, characters consumed,
    success. *)
Definition xtoi (s : string) : Z * Z * bool := xtoi_loop s 0 0.

(** [byte(n)] for a non-negative [int]. *)
Definition to_byte (n : Z) : byte := n mod 256.

(** [p[i] = v] on a slice or array; nothing is written outside of it (the
    code never does, there Go would panic). *)
Fixpoint set_nth (p : list byte) (i : nat) (v : byte) : list byte :=
  match p, i with
  | [], _ => []
  | _ :: p', O => v :: p'
  | x :: p', S i' => x :: set_nth p' i' v
  end.

Definition set (p : list byte) (i : Z) (v : byte) : list byte :=
  if i <? 0 then p else set_nth p (Z.to_nat i) v.

(** [p[i]] on a slice, 0 outside of it (never read there). *)
Definition at_ (p : list byte) (i : Z) : byte :=
  if i <? 0 then 0 else nth (Z.to_nat i) p 0.

Definition v4InV6Prefix : list byte := [0; 0; 0; 0; 0; 0; 0; 0; 0; 0; 255; 255].

(** [func IPv4(a, b, c, d byte) IP]: the 16-byte form of a.b.c.d. *)
Definition IPv4 (a b c d : byte) : IP := (v4InV6Prefix ++ [a; b; c; d])%list.

(** The loop of [parseIPv4], [for i := 0; i < IPv4len; i++], with [fuel]
    iterations left. *)
Fixpoint parseIPv4_loop (fuel : nat) (i : Z) (s : string) (p : list byte)
    : option IP :=
  match fuel with
  | O =>
      if negb (len s =? 0) then None
      else Some (IPv4 (at_ p 0) (at_ p 1) (at_ p 2) (at_ p 3))
  | S fuel' =>
      if len s =? 0 then None (* missing octets *)
      else
        let dot_ok := if 0 <? i then index_is s 0 "." else true in
        if negb dot_ok then None
        else
          let s := if 0 <? i then slice_from s 1 else s in
          let '(n, c, ok) := dtoi s in
          if negb ok || (0xFF <? n) then None
          else
            parseIPv4_loop fuel' (i + 1) (slice_from s c)
              (set p i (to_byte n))
  end.

(** Modelled from the spec: the library's [func parseIPv4(s string) IP]
    (not under src/): an IPv4 address in dotted-decimal form; octets with
    leading zeros are accepted. [None] is its nil. *)
Definition parseIPv4 (s : string) : option IP :=
  parseIPv4_loop (Z.to_nat IPv4len) 0 s [0; 0; 0; 0].

(** The state of the main loop of [parseIPv6]: the rest of the input, the
    address so far, the position in it, and the position of the
    ellipsis (-1 when there is none yet). *)
Record v6state : Type := mkV6 {
  v6_s : string;
  v6_ip : IP;
  v6_i : Z;
  v6_ellipsis : Z
}.

(** The loop [for i < IPv6len] of [parseIPv6]; [None] where the code
    returns nil inside of the loop, the state at the loop's exit
    otherwise. Each round advances [i] by two, so eight rounds are all
    that can run ([parseIPv6_loop_fuel] below). *)
Fixpoint parseIPv6_loop (fuel : nat) (st : v6state) : option v6state :=
  match fuel with
  | O => Some st
  | S fuel' =>
      let '(mkV6 s ip i ellipsis) := st in
      if negb (i <? IPv6len) then Some st
      else
        (* Hex number. *)
        let '(n, c, ok) := xtoi s in
        if negb ok || (0xFFFF <? n) then None
        else if (c <? len s) && index_is s c "." then
          (* Followed by a dot: might be in trailing IPv4. *)
          if (ellipsis <? 0) && negb (i =? IPv6len - IPv4len) then None
          else if IPv6len <? i + IPv4len then None
          else
            match parseIPv4 s with
            | None => None
            | Some ip4 =>
                let ip := set ip i (at_ ip4 12) in
                let ip := set ip (i + 1) (at_ ip4 13) in
                let ip := set ip (i + 2) (at_ ip4 14) in
                let ip := set ip (i + 3) (at_ ip4 15) in
                Some (mkV6 "" ip (i + IPv4len) ellipsis)
            end
        else
          (* Save this 16-bit chunk. *)
          let ip := set ip i (to_byte (Z.shiftr n 8)) in
          let ip := set ip (i + 1) (to_byte n) in
          let i := i + 2 in
          (* Stop at end of string. *)
          let s := slice_from s c in
          if len s =? 0 then Some (mkV6 s ip i ellipsis)
          else if negb (index_is s 0 ":") || (len s =? 1) then None
          else
            let s := slice_from s 1 in
            (* Look for ellipsis. *)
            if index_is s 0 ":" then
              if 0 <=? ellipsis then None
              else
                let ellipsis := i in
                let s := slice_from s 1 in
                if len s =? 0 then Some (mkV6 s ip i ellipsis)
                else parseIPv6_loop fuel' (mkV6 s ip i ellipsis)
            else parseIPv6_loop fuel' (mkV6 s ip i ellipsis)
  end.

(** [for j := hi; j >= lo; j-- { ip = body(j, ip) }]. *)
Definition for_down (hi lo : Z) (body : Z -> IP -> IP) (ip : IP) : IP :=
  fold_left (fun ip k => body (hi - Z.of_nat k) ip)
    (seq 0 (Z.to_nat (hi - lo + 1))) ip.

(** The end of [parseIPv6]: the whole string must have been used, and an
    ellipsis stands for the groups that are missing, at least one. *)
Definition parseIPv6_finish (st : v6state) : option IP :=
  let '(mkV6 s ip i ellipsis) := st in
  if negb (len s =? 0) then None
  else if i <? IPv6len then
    if ellipsis <? 0 then None
    else
      let n := IPv6len - i in
      let ip := for_down (i - 1) ellipsis
                  (fun j ip => set ip (j + n) (at_ ip j)) ip in
      let ip := for_down (ellipsis + n - 1) ellipsis
                  (fun j ip => set ip j 0) ip in
      Some ip
  else if 0 <=? ellipsis then None
  else Some ip.

(** Modelled from the spec: the library's
    [func parseIPv6(s string) (ip IP)] (not under src/): an IPv6 address
    in the text form of RFC 4291, without zone. [None] is its nil. *)
Definition parseIPv6 (s : string) : option IP :=
  let ip := repeat 0 (Z.to_nat IPv6len) in
  let ellipsis := -1 in
  let leading := (2 <=? len s) && index_is s 0 ":" && index_is s 1 ":" in
  let ellipsis := if leading then 0 else ellipsis in
  let s := if leading then slice_from s 2 else s in
  if leading && (len s =? 0) then Some ip
  else
    match parseIPv6_loop (Z.to_nat (IPv6len / 2)) (mkV6 s ip 0 ellipsis) with
    | None => None
    | Some st => parseIPv6_finish st
    end.

(** The loop of [CIDRMask] over the [l] bytes of the mask, [n] ones left. *)
Fixpoint CIDRMask_loop (l : nat) (n : Z) : IPMask :=
  match l with
  | O => []
  | S l' =>
      if 8 <=? n then 0xff :: CIDRMask_loop l' (n - 8)
      else Z.lxor 0xff (Z.shiftr 0xff n) :: CIDRMask_loop l' 0
  end.

(** Modelled from the spec: [func CIDRMask(ones, bits int) IPMask] of
    Go's [net] (not under src/); [[]] is its nil. *)
Definition CIDRMask (ones bits : Z) : IPMask :=
  if negb (bits =? 8 * IPv4len) && negb (bits =? 8 * IPv6len) then []
  else if (ones <? 0) || (bits <? ones) then []
  else CIDRMask_loop (Z.to_nat (bits / 8)) ones.

(** [bytesEqual(a, b)]. *)
Fixpoint bytesEqual (a b : list byte) : bool :=
  match a, b with
  | [], [] => true
  | x :: a', y :: b' => (x =? y) && bytesEqual a' b'
  | _, _ => false
  end.

(** [allFF(b)]. *)
Definition allFF (b : list byte) : bool := forallb (Z.eqb 0xff) b.

(** Modelled from the spec: [func (ip IP) Mask(mask IPMask) IP] of Go's
    [net] (not under src/); [[]] is its nil. *)
Definition Mask (ip : IP) (mask : IPMask) : IP :=
  let mask :=
    if (Z.of_nat (length mask) =? IPv6len) && (Z.of_nat (length ip) =? IPv4len)
       && allFF (firstn 12 mask)
    then skipn 12 mask else mask in
  let ip :=
    if (Z.of_nat (length mask) =? IPv4len) && (Z.of_nat (length ip) =? IPv6len)
       && bytesEqual (firstn 12 ip) v4InV6Prefix
    then skipn 12 ip else ip in
  if negb (length ip =? length mask)%nat then []
  else map (fun '(a, b) => Z.land a b) (combine ip mask).

(** Modelled from the spec: [func (ip IP) To4() IP] of Go's [net] (not
    under src/): the 4-byte form of an IPv4 address, [None] (nil) when
    [ip] is not one. *)
Definition To4 (ip : IP) : option IP :=
  if Z.of_nat (length ip) =? IPv4len then Some ip
  else if (Z.of_nat (length ip) =? IPv6len)
          && forallb (Z.eqb 0) (firstn 10 ip)
          && (at_ ip 10 =? 0xff) && (at_ ip 11 =? 0xff)
  then Some (firstn 4 (skipn 12 ip))
  else None.

(** Modelled from the spec: [func (ip IP) To16() IP] of Go's [net] (not
    under src/): the 16-byte form, [None] (nil) when [ip] has the wrong
    length. *)
Definition To16 (ip : IP) : option IP :=
  if Z.of_nat (length ip) =? IPv4len
  then Some (IPv4 (at_ ip 0) (at_ ip 1) (at_ ip 2) (at_ ip 3))
  else if Z.of_nat (length ip) =? IPv6len then Some ip
  else None.

(** Modelled from the spec: the library's
    [func ParseCIDR(s string) (IP, *IPNet, error)] (not under src/): the
    parse of an address/prefix-length pair. It returns the address, the
    network the address and the length imply (the address masked), and no
    error; or a [ParseError] that carries [s]. *)
Definition ParseCIDR (s : string) : IP * option IPNet * option error :=
  let failure := ([], None, Some (ParseError "CIDR address" s)) in
  let i := IndexByte s "/" in
  if i <? 0 then failure
  else
    let addr := slice_to s i in
    let mask := slice_from s (i + 1) in
    let iplen := IPv4len in
    let ip := parseIPv4 addr in
    let iplen := match ip with None => IPv6len | Some _ => iplen end in
    let ip := match ip with None => parseIPv6 addr | Some _ => ip end in
    let '(n, i, ok) := dtoi mask in
    match ip with
    | None => failure
    | Some ip =>
        if negb ok || negb (i =? len mask) || (n <? 0) || (8 * iplen <? n)
        then failure
        else
          let m := CIDRMask n (8 * iplen) in
          (ip, Some {| IPNet_IP := Mask ip m; IPNet_Mask := m |}, None)
    end.

End forkednet.

(** Modelled from the spec: the functions of k8s.io/utils/net that
    traffic.go calls (the package is not under src/), after the library:
    the spec has the family of the parsed prefix decide between the
    keywords "ip" and "ip6". *)
Module netutils.

(** [type IPFamily string] with its three constants. *)
Inductive IPFamily : Type := IPFamilyUnknown | IPv4 | IPv6.

Definition IPFamily_eqb (a b : IPFamily) : bool :=
  match a, b with
  | IPFamilyUnknown, IPFamilyUnknown | IPv4, IPv4 | IPv6, IPv6 => true
  | _, _ => false
  end.

(** Modelled from the spec: [func IPFamilyOf(ip net.IP) IPFamily] of
    k8s.io/utils/net (not under src/): IPv4 for a 4-byte or an IPv4-mapped
    address, IPv6 for any other 16-byte address. *)
Definition IPFamilyOf (ip : IP) : IPFamily :=
  match forkednet.To4 ip with
  | Some _ => IPv4
  | None =>
      match forkednet.To16 ip with
      | Some _ => IPv6
      | None => IPFamilyUnknown
      end
  end.

(** Modelled from the spec: [func IPFamilyOfCIDR(cidr *net.IPNet)
    IPFamily] of k8s.io/utils/net (not under src/): the family of the
    prefix's address, unknown for nil. *)
Definition IPFamilyOfCIDR (cidr : option IPNet) : IPFamily :=
  match cidr with
  | None => IPFamilyUnknown
  | Some c => IPFamilyOf (IPNet_IP c)
  end.

(** Modelled from the spec: [func IsIPv6CIDR(cidr *net.IPNet) bool] of
    k8s.io/utils/net, not under src/: whether the parsed prefix is an
    IPv6 one. *)
Definition IsIPv6CIDR (cidr : option IPNet) : bool :=
  IPFamily_eqb (IPFamilyOfCIDR cidr) IPv6.

(** Modelled from the spec: [ParseCIDRSloppy] of k8s.io/utils/net, not
    under src/, which is [forkednet.ParseCIDR]: the parse of an
    address/prefix-length pair that fails with a [ParseError]. *)
Definition ParseCIDRSloppy (cidrStr : string)
    : IP * option IPNet * option error :=
  forkednet.ParseCIDR cidrStr.

End netutils.

(** The library as an instance of the interface. *)
#[export] Instance netutils_go : NetUtils := {|
  ParseCIDRSloppy := netutils.ParseCIDRSloppy;
  IsIPv6CIDR := netutils.IsIPv6CIDR
|}.

(** ** The syntax of an address/prefix-length pair

    What the specification calls a syntactically valid address/prefix-length
    pair, written down as a grammar of strings, independently of any
    parser: an address in dotted-decimal form or in the colon-hexadecimal
    form of IPv6, a slash, and a prefix length in decimal that is at most
    the number of bits of the address. Numbers may have leading zeros. *)
Module Syntax.

Local Open Scope Z_scope.

(** The place of the character [c] in the string [s], from 0. *)
Fixpoint position (c : ascii) (s : string) : option Z :=
  match s with
  | EmptyString => None
  | String a s' =>
      if Ascii.eqb a c then Some 0
      else option_map Z.succ (position c s')
  end.

(** The value of a decimal digit is its place among the ten digits. *)
Definition digit10 (c : ascii) : option Z := position c "0123456789".

(** The value of a hexadecimal digit is its place among the sixteen
    digits; the letters may be in upper case. *)
Definition digit16 (c : ascii) : option Z :=
  match position c "0123456789abcdef" with
  | Some d => Some d
  | None => option_map (Z.add 10) (position c "ABCDEF")
  end.

(** The number the digits of [s] denote in base [base], after the
    digits that gave [acc]; [None] when a character of [s] is no digit. *)
Fixpoint horner (digit : ascii -> option Z) (base acc : Z) (s : string)
    : option Z :=
  match s with
  | EmptyString => Some acc
  | String c s' =>
      match digit c with
      | Some d => horner digit base (acc * base + d) s'
      | None => None
      end
  end.

(** A numeral is a non-empty string of digits. *)
Definition numeral (digit : ascii -> option Z) (base : Z) (s : string)
    : option Z :=
  match s with
  | EmptyString => None
  | _ => horner digit base 0 s
  end.

Definition decimal : string -> option Z := numeral digit10 10.
Definition hexadecimal : string -> option Z := numeral digit16 16.

(** A decimal numeral of at most [max]. *)
Definition decimal_upto (max : Z) (s : string) : Prop :=
  exists n, decimal s = Some n /\ n <= max.

(** An octet of a dotted-decimal address. *)
Definition octet : string -> Prop := decimal_upto 255.

(** A 16-bit group of an IPv6 address. *)
Definition group (s : string) : Prop :=
  exists n, hexadecimal s = Some n /\ n <= 0xFFFF.

(** An IPv4 address in dotted-decimal form. *)
Definition dotted_quad (s : string) : Prop :=
  exists a b c d,
    octet a /\ octet b /\ octet c /\ octet d /\
    s = (a ++ "." ++ b ++ "." ++ c ++ "." ++ d)%string.

(** The fields of [l], separated by colons. *)
Fixpoint join (l : list string) : string :=
  match l with
  | [] => ""
  | [f] => f
  | f :: l' => f ++ ":" ++ join l'
  end.

(** [fields l n]: [l] is a list of groups, the last of which may be a
    dotted quad instead, that stands for [n] 16-bit groups in all. *)
Inductive fields : list string -> Z -> Prop :=
| fields_nil : fields [] 0
| fields_quad (q : string) : dotted_quad q -> fields [q] 2
| fields_cons (g : string) (l : list string) (n : Z) :
    group g -> fields l n -> fields (g :: l) (n + 1).

(** An IPv6 address in text form: eight groups' worth of fields, or fewer
    with one "::" that stands for the groups left out, at least one. *)
Inductive ipv6_text (s : string) : Prop :=
| ipv6_full (l : list string) :
    fields l 8 -> s = join l -> ipv6_text s
| ipv6_compressed (l r : list string) (n : Z) :
    Forall group l -> fields r n -> Z.of_nat (length l) + n <= 7 ->
    s = (join l ++ "::" ++ join r)%string -> ipv6_text s.

(** An address/prefix-length pair. *)
Inductive address_prefix_pair (s : string) : Prop :=
| pair_v4 (addr plen : string) :
    dotted_quad addr -> decimal_upto 32 plen ->
    s = (addr ++ "/" ++ plen)%string -> address_prefix_pair s
| pair_v6 (addr plen : string) :
    ipv6_text addr -> decimal_upto 128 plen ->
    s = (addr ++ "/" ++ plen)%string -> address_prefix_pair s.

End Syntax.

(** ** Vocabulary of the properties *)

(** What a call of an accessor [m] on the detector [d] returns, and the
    detector it leaves behind. *)
Definition returns {A : Type} (m : state LocalTrafficDetector A)
    (d : LocalTrafficDetector) : A := evalState m d.

Definition leaves {A : Type} (m : state LocalTrafficDetector A)
    (d : LocalTrafficDetector) : LocalTrafficDetector := execState m d.

(** The four token sequences of a detector, as its accessors return them:
    legacy-local, legacy-not-local, nft-local, nft-not-local. *)
Record tokens : Type := mkTokens {
  legacy_local : list string;
  legacy_not_local : list string;
  nft_local : list string;
  nft_not_local : list string
}.

Definition tokens_of (d : LocalTrafficDetector) : tokens :=
  {| legacy_local := returns IfLocal d;
     legacy_not_local := returns IfNotLocal d;
     nft_local := returns IfLocalNFT d;
     nft_not_local := returns IfNotLocalNFT d |}.

(** The nftables family keyword of a parsed prefix. *)
Definition family_keyword `{NU : NetUtils} (parsed : option IPNet) : string :=
  if IsIPv6CIDR parsed then "ip6" else "ip".

(** The prefix the parser makes of a CIDR string (nil when it fails). *)
Definition parsed_prefix `{NU : NetUtils} (cidr : string) : option IPNet :=
  snd (fst (ParseCIDRSloppy cidr)).

(** [l] with the token [x] put immediately before its last element. *)
Fixpoint insert_before_last (x : string) (l : list string) : list string :=
  match l with
  | [] => [x]
  | [a] => [x; a]
  | a :: l' => a :: insert_before_last x l'
  end.

(** The detector is the no-op variant. *)
Definition is_noop (d : LocalTrafficDetector) : bool :=
  match d with
  | NoOp _ => true
  | _ => false
  end.

(** [d] is what one of the three constructors that can fail returned,
    without an error. *)
Inductive constructed `{NU : NetUtils} (d : LocalTrafficDetector) : Prop :=
| constructed_ByCIDR (cidr : string) :
    NewDetectLocalByCIDR cidr = (Some d, None) -> constructed d
| constructed_ByBridgeInterface (interfaceName : string) :
    NewDetectLocalByBridgeInterface interfaceName = (Some d, None) ->
    constructed d
| constructed_ByInterfaceNamePrefix (interfacePrefix : string) :
    NewDetectLocalByInterfaceNamePrefix interfacePrefix = (Some d, None) ->
    constructed d.

(** The five accessors of the interface, and a client's calls of them. *)
Inductive accessor : Type :=
| CallIsImplemented
| CallIfLocal
| CallIfNotLocal
| CallIfLocalNFT
| CallIfNotLocalNFT.

Inductive value : Type :=
| Bool (b : bool)
| Tokens (l : list string).

Definition call (a : accessor) : state LocalTrafficDetector value :=
  match a with
  | CallIsImplemented => b <- IsImplemented ;; ret (Bool b)
  | CallIfLocal => l <- IfLocal ;; ret (Tokens l)
  | CallIfNotLocal => l <- IfNotLocal ;; ret (Tokens l)
  | CallIfLocalNFT => l <- IfLocalNFT ;; ret (Tokens l)
  | CallIfNotLocalNFT => l <- IfNotLocalNFT ;; ret (Tokens l)
  end.

(** A sequence of calls, one after the other on the same detector; the
    values they return, in order. *)
Fixpoint calls (l : list accessor) : state LocalTrafficDetector (list value) :=
  match l with
  | [] => ret []
  | a :: l' => v <- call a ;; vs <- calls l' ;; ret (v :: vs)
  end.

(** ** Vocabulary of the further properties *)

(** Go's convention for a result pair: exactly one of the value and the
    error is nil. *)
Definition one_nil (r : option LocalTrafficDetector * option error) : Prop :=
  (fst r = None /\ snd r <> None) \/ (fst r <> None /\ snd r = None).

(** The three constructors that take a string, by the kind of detector
    they make. *)
Inductive kind : Type := CIDR | BridgeInterface | InterfaceNamePrefix.

Definition construct `{NU : NetUtils} (k : kind) (input : string)
    : option LocalTrafficDetector * option error :=
  match k with
  | CIDR => NewDetectLocalByCIDR input
  | BridgeInterface => NewDetectLocalByBridgeInterface input
  | InterfaceNamePrefix => NewDetectLocalByInterfaceNamePrefix input
  end.

(** [d] is what one of the four constructors returned. *)
Inductive built `{NU : NetUtils} (d : LocalTrafficDetector) : Prop :=
| built_NoOp : d = NewNoOpLocalDetector -> built d
| built_constructed : constructed d -> built d.

(** No token of the sequence is the empty string. *)
Definition no_empty_token (l : list string) : Prop :=
  Forall (fun t => t <> "") l.


(** ** Shapes of the parser's input

    The predicates and the pieces of the parser's loops that the lemmas
    about [forkednet] are stated with. *)
Module Shapes.

Import forkednet Syntax.

Local Open Scope Z_scope.

(** The rest of the input after a numeral does not go on with a digit. *)
Definition no_digit_first (digit : ascii -> option Z) (s : string) : Prop :=
  match s with
  | EmptyString => True
  | String c _ => digit c = None
  end.

(** What stands before the octet of round [i] of [parseIPv4]. *)
Definition dot_before (i : Z) : string := if 0 <? i then "." else "".

(** The input of [parseIPv4] with [n] octets to go, in round [i]. *)
Fixpoint octets (n : nat) (i : Z) (s : string) : Prop :=
  match n with
  | O => s = ""
  | S n' =>
      exists o rest,
        octet o /\ s = (dot_before i ++ o ++ rest)%string /\
        octets n' (i + 1) rest
  end.

(** The string starts with a hexadecimal digit. *)
Definition starts_hex (s : string) : Prop :=
  exists c s', s = String c s' /\ digit16 c <> None.

(** The round after its hexadecimal number, when a dot follows it. *)
Definition quad_round (s : string) (ip : IP) (i ellipsis : Z)
    : option v6state :=
  if (ellipsis <? 0) && negb (i =? 12) then None
  else if 16 <? i + 4 then None
  else
    match parseIPv4 s with
    | None => None
    | Some ip4 =>
        Some (mkV6 ""
                (set (set (set (set ip i (at_ ip4 12)) (i + 1) (at_ ip4 13))
                        (i + 2) (at_ ip4 14)) (i + 3) (at_ ip4 15))
                (i + 4) ellipsis)
    end.

(** The round after its group is saved: [s] is the input after the
    group, [i] already points after it. *)
Definition group_round (fuel : nat) (s : string) (ip : IP) (i ellipsis : Z)
    : option v6state :=
  if len s =? 0 then Some (mkV6 s ip i ellipsis)
  else if negb (index_is s 0 ":") || (len s =? 1) then None
  else
    let s := slice_from s 1 in
    if index_is s 0 ":" then
      if 0 <=? ellipsis then None
      else
        let s := slice_from s 1 in
        if len s =? 0 then Some (mkV6 s ip i i)
        else parseIPv6_loop fuel (mkV6 s ip i i)
    else parseIPv6_loop fuel (mkV6 s ip i ellipsis).

(** What a round that does not fail has read: nothing (the address is
    full), a dotted quad that ends the input, or a group and what
    separates it from the next field. *)
Inductive round (fuel : nat) (s : string) (i ellipsis : Z) (st' : v6state)
    : Prop :=
| round_full (ip : IP) :
    16 <= i -> st' = mkV6 s ip i ellipsis -> round fuel s i ellipsis st'
| round_quad (ip : IP) :
    i < 16 -> dotted_quad s -> i + 4 <= 16 ->
    st' = mkV6 "" ip (i + 4) ellipsis ->
    round fuel s i ellipsis st'
| round_last (ip : IP) :
    i < 16 -> group s -> st' = mkV6 "" ip (i + 2) ellipsis ->
    round fuel s i ellipsis st'
| round_next (g s1 : string) (ip : IP) :
    i < 16 -> group g -> s = (g ++ ":" ++ s1)%string -> s1 <> "" ->
    parseIPv6_loop fuel (mkV6 s1 ip (i + 2) ellipsis) = Some st' ->
    round fuel s i ellipsis st'
| round_ellipsis_last (g : string) (ip : IP) :
    i < 16 -> group g -> s = (g ++ "::")%string -> ellipsis < 0 ->
    st' = mkV6 "" ip (i + 2) (i + 2) ->
    round fuel s i ellipsis st'
| round_ellipsis_next (g s1 : string) (ip : IP) :
    i < 16 -> group g -> s = (g ++ "::" ++ s1)%string -> s1 <> "" ->
    ellipsis < 0 ->
    parseIPv6_loop fuel (mkV6 s1 ip (i + 2) (i + 2)) = Some st' ->
    round fuel s i ellipsis st'.

(** The test for a leading ellipsis. *)
Definition leading_ellipsis (s : string) : bool :=
  (2 <=? len s) && index_is s 0 ":" && index_is s 1 ":".

(** [c] occurs in [s]. *)
Fixpoint occurs (c : ascii) (s : string) : bool :=
  match s with
  | EmptyString => false
  | String c' s' => Ascii.eqb c' c || occurs c s'
  end.

(** The test [ParseCIDR] makes on what [dtoi] read of the prefix length. *)
Definition bad_prefix_length (bits : Z) (mask : string) : bool :=
  let '(n, i, ok) := dtoi mask in
  negb ok || negb (i =? len mask) || (n <? 0) || (bits <? n).

End Shapes.

(** * Properties *)

(** ** Examples *)

Example bridge_cbr0 :
  NewDetectLocalByBridgeInterface "cbr0" =
  (Some (ByBridgeInterface {|
     detectLocalByBridgeInterface.ifLocal := ["-i"; "cbr0"];
     detectLocalByBridgeInterface.ifNotLocal := ["!"; "-i"; "cbr0"];
     detectLocalByBridgeInterface.ifLocalNFT := ["iif"; "cbr0"];
     detectLocalByBridgeInterface.ifNotLocalNFT := ["iif"; "!="; "cbr0"]
   |}), None).
Proof. reflexivity. Qed.

Example prefix_veth_local :
  evalState IfLocal
    match fst (NewDetectLocalByInterfaceNamePrefix "veth") with
    | Some d => d
    | None => NewNoOpLocalDetector
    end = ["-i"; "veth+"].
Proof. reflexivity. Qed.

(** ** Strings *)

Lemma len_zero_iff (s : string) : (len s =? 0)%Z = true <-> s = "".
Proof.
  unfold len. destruct s as [|c s]; simpl.
  - split; reflexivity.
  - split; intros H; discriminate H.
Qed.

Lemma len_nonempty (s : string) : s <> "" -> (len s =? 0)%Z = false.
Proof.
  intros Hs. destruct (len s =? 0)%Z eqn:E; [|reflexivity].
  apply len_zero_iff in E. contradiction.
Qed.

(** ** Accessors only read *)

(** A method of one of the structs, run through the interface, leaves the
    interface value as it was when the method leaves its receiver alone. *)
Lemma dispatch_reads {T A : Type} (tag : T -> LocalTrafficDetector)
    (m : state T A) (x : T) :
  execState m x = x -> snd (dispatch tag m x) = tag x.
Proof.
  unfold dispatch, execState. destruct (runState m x) as [a x']; simpl.
  intros ->. reflexivity.
Qed.

Lemma IsImplemented_leaves (d : LocalTrafficDetector) :
  leaves IsImplemented d = d.
Proof. destruct d; apply dispatch_reads; reflexivity. Qed.

Lemma IfLocal_leaves (d : LocalTrafficDetector) : leaves IfLocal d = d.
Proof. destruct d; apply dispatch_reads; reflexivity. Qed.

Lemma IfNotLocal_leaves (d : LocalTrafficDetector) : leaves IfNotLocal d = d.
Proof. destruct d; apply dispatch_reads; reflexivity. Qed.

Lemma IfLocalNFT_leaves (d : LocalTrafficDetector) : leaves IfLocalNFT d = d.
Proof. destruct d; apply dispatch_reads; reflexivity. Qed.

Lemma IfNotLocalNFT_leaves (d : LocalTrafficDetector) :
  leaves IfNotLocalNFT d = d.
Proof. destruct d; apply dispatch_reads; reflexivity. Qed.

(** Wrapping the value a computation returns does not touch the state. *)
Lemma execState_map {S A B : Type} (m : state S A) (f : A -> B) (s : S) :
  execState (x <- m ;; ret (f x)) s = execState m s.
Proof.
  unfold execState. simpl. destruct (runState m s) as [a s']. reflexivity.
Qed.

Lemma call_leaves (a : accessor) (d : LocalTrafficDetector) :
  leaves (call a) d = d.
Proof.
  unfold leaves. destruct a; unfold call.
  - rewrite (execState_map IsImplemented Bool). apply IsImplemented_leaves.
  - rewrite (execState_map IfLocal Tokens). apply IfLocal_leaves.
  - rewrite (execState_map IfNotLocal Tokens). apply IfNotLocal_leaves.
  - rewrite (execState_map IfLocalNFT Tokens). apply IfLocalNFT_leaves.
  - rewrite (execState_map IfNotLocalNFT Tokens). apply IfNotLocalNFT_leaves.
Qed.

Lemma calls_leaves (l : list accessor) (d : LocalTrafficDetector) :
  leaves (calls l) d = d.
Proof.
  revert d. induction l as [|a l IH]; intros d.
  - reflexivity.
  - pose proof (call_leaves a d) as Ha. specialize (IH d).
    unfold leaves, execState in *. simpl.
    destruct (runState (call a) d) as [v d1] eqn:E1. simpl in Ha. subst d1.
    destruct (runState (calls l) d) as [vs d2] eqn:E2. simpl in IH.
    simpl. exact IH.
Qed.

(** The values a sequence of calls returns are those each call returns on
    the detector as it was constructed. *)
Lemma calls_returns (l : list accessor) (d : LocalTrafficDetector) :
  returns (calls l) d = map (fun a => returns (call a) d) l.
Proof.
  revert d. induction l as [|a l IH]; intros d.
  - reflexivity.
  - pose proof (call_leaves a d) as Ha. specialize (IH d).
    unfold returns, leaves, evalState, execState in *. simpl.
    destruct (runState (call a) d) as [v d1] eqn:E1. simpl in Ha. subst d1.
    destruct (runState (calls l) d) as [vs d2] eqn:E2. simpl in IH.
    simpl. rewrite IH. reflexivity.
Qed.

(** ** The constructors *)

Section Constructors.

Context `{NU : NetUtils}.

(** The CIDR constructor returns the parser's error and no detector, or a
    detector and no error. *)
Lemma NewDetectLocalByCIDR_cases (cidr : string) :
  (exists e, snd (ParseCIDRSloppy cidr) = Some e /\
             NewDetectLocalByCIDR cidr = (None, Some e)) \/
  (snd (ParseCIDRSloppy cidr) = None /\
   NewDetectLocalByCIDR cidr =
   (Some (ByCIDR {|
      detectLocalByCIDR.ifLocal := ["-s"; cidr];
      detectLocalByCIDR.ifNotLocal := ["!"; "-s"; cidr];
      detectLocalByCIDR.ifLocalNFT :=
        [family_keyword (parsed_prefix cidr); "saddr"; cidr];
      detectLocalByCIDR.ifNotLocalNFT :=
        [family_keyword (parsed_prefix cidr); "saddr"; "!="; cidr]
    |}), None)).
Proof.
  unfold NewDetectLocalByCIDR, parsed_prefix, family_keyword.
  destruct (ParseCIDRSloppy cidr) as [[ip parsed] [e|]]; simpl.
  - left. exists e. split; reflexivity.
  - right. split; reflexivity.
Qed.

Lemma NewDetectLocalByCIDR_ok (cidr : string) (d : LocalTrafficDetector) :
  NewDetectLocalByCIDR cidr = (Some d, None) ->
  d = ByCIDR {|
        detectLocalByCIDR.ifLocal := ["-s"; cidr];
        detectLocalByCIDR.ifNotLocal := ["!"; "-s"; cidr];
        detectLocalByCIDR.ifLocalNFT :=
          [family_keyword (parsed_prefix cidr); "saddr"; cidr];
        detectLocalByCIDR.ifNotLocalNFT :=
          [family_keyword (parsed_prefix cidr); "saddr"; "!="; cidr]
      |}.
Proof.
  intros H. destruct (NewDetectLocalByCIDR_cases cidr) as [[e [_ E]]|[_ E]];
    rewrite E in H.
  - discriminate H.
  - injection H as <-. reflexivity.
Qed.

Lemma NewDetectLocalByBridgeInterface_ok (interfaceName : string)
    (d : LocalTrafficDetector) :
  NewDetectLocalByBridgeInterface interfaceName = (Some d, None) ->
  d = ByBridgeInterface {|
        detectLocalByBridgeInterface.ifLocal := ["-i"; interfaceName];
        detectLocalByBridgeInterface.ifNotLocal := ["!"; "-i"; interfaceName];
        detectLocalByBridgeInterface.ifLocalNFT := ["iif"; interfaceName];
        detectLocalByBridgeInterface.ifNotLocalNFT :=
          ["iif"; "!="; interfaceName]
      |}.
Proof.
  unfold NewDetectLocalByBridgeInterface.
  destruct (len interfaceName =? 0)%Z; intros H.
  - discriminate H.
  - injection H as <-. reflexivity.
Qed.

Lemma NewDetectLocalByInterfaceNamePrefix_ok (interfacePrefix : string)
    (d : LocalTrafficDetector) :
  NewDetectLocalByInterfaceNamePrefix interfacePrefix = (Some d, None) ->
  d = ByInterfaceNamePrefix {|
        detectLocalByInterfaceNamePrefix.ifLocal :=
          ["-i"; interfacePrefix ++ "+"];
        detectLocalByInterfaceNamePrefix.ifNotLocal :=
          ["!"; "-i"; interfacePrefix ++ "+"];
        detectLocalByInterfaceNamePrefix.ifLocalNFT :=
          ["iif"; interfacePrefix ++ "*"];
        detectLocalByInterfaceNamePrefix.ifNotLocalNFT :=
          ["iif"; "!="; interfacePrefix ++ "*"]
      |}.
Proof.
  unfold NewDetectLocalByInterfaceNamePrefix.
  destruct (len interfacePrefix =? 0)%Z; intros H.
  - discriminate H.
  - injection H as <-. reflexivity.
Qed.

(** C1: for every CIDR string the constructor accepts, the detector it
    returns has exactly the token sequences legacy-local = ["-s", cidr],
    legacy-not-local = ["!", "-s", cidr], nft-local = [family, "saddr",
    cidr] and nft-not-local = [family, "saddr", "!=", cidr], where cidr is
    the input string itself and family is "ip6" when the parsed prefix is
    an IPv6 one and "ip" otherwise. *)
Theorem NewDetectLocalByCIDR_tokens (cidr : string)
    (d : LocalTrafficDetector) :
  NewDetectLocalByCIDR cidr = (Some d, None) ->
  tokens_of d =
  {| legacy_local := ["-s"; cidr];
     legacy_not_local := ["!"; "-s"; cidr];
     nft_local :=
       [if IsIPv6CIDR (parsed_prefix cidr) then "ip6" else "ip";
        "saddr"; cidr];
     nft_not_local :=
       [if IsIPv6CIDR (parsed_prefix cidr) then "ip6" else "ip";
        "saddr"; "!="; cidr] |}.
Proof.
  intros H. apply NewDetectLocalByCIDR_ok in H. subst d.
  unfold family_keyword. reflexivity.
Qed.

(** C3: for every detector that one of the three constructors that can
    fail has returned (CIDR, bridge interface, interface-name prefix), in
    both syntax families the local sequence has a match target, its last
    token, and the not-local sequence negates the local one over that
    target: the legacy local sequence is a flag and a target and the
    legacy not-local sequence is "!" prepended to it, and the nft local
    sequence is a non-empty match key and a target and the nft not-local
    sequence is the same key, "!=", and the same target, that is the
    local sequence with "!=" inserted immediately before its last
    operand. *)
Theorem not_local_negates_local (d : LocalTrafficDetector) :
  constructed d ->
  returns IfLocal d <> [] /\
  returns IfNotLocal d = "!" :: returns IfLocal d /\
  (exists flag target,
     returns IfLocal d = [flag; target] /\
     returns IfNotLocal d = ["!"; flag; target]) /\
  (exists init target,
     init <> [] /\
     returns IfLocalNFT d = (init ++ [target])%list /\
     returns IfNotLocalNFT d = (init ++ ["!="; target])%list) /\
  returns IfNotLocalNFT d = insert_before_last "!=" (returns IfLocalNFT d).
Proof.
  intros [cidr H|interfaceName H|interfacePrefix H].
  - apply NewDetectLocalByCIDR_ok in H. subst d.
    split; [discriminate|]. split; [reflexivity|]. split; [|split].
    + exists "-s", cidr. split; reflexivity.
    + exists [family_keyword (parsed_prefix cidr); "saddr"], cidr.
      split; [discriminate|]. split; reflexivity.
    + reflexivity.
  - apply NewDetectLocalByBridgeInterface_ok in H. subst d.
    split; [discriminate|]. split; [reflexivity|]. split; [|split].
    + exists "-i", interfaceName. split; reflexivity.
    + exists ["iif"], interfaceName.
      split; [discriminate|]. split; reflexivity.
    + reflexivity.
  - apply NewDetectLocalByInterfaceNamePrefix_ok in H. subst d.
    split; [discriminate|]. split; [reflexivity|]. split; [|split].
    + exists "-i", (interfacePrefix ++ "+"). split; reflexivity.
    + exists ["iif"], (interfacePrefix ++ "*").
      split; [discriminate|]. split; reflexivity.
    + reflexivity.
Qed.

(** C8: [IsImplemented] returns false on the detector of
    [NewNoOpLocalDetector] and true on every detector one of the three
    other constructors returned; on every detector it returns true if and
    only if the detector is not the no-op variant. *)
Theorem IsImplemented_iff_not_noop :
  returns IsImplemented NewNoOpLocalDetector = false /\
  (forall d, constructed d -> returns IsImplemented d = true) /\
  (forall d, returns IsImplemented d = true <-> is_noop d = false) /\
  (forall d, is_noop d = true <-> d = NewNoOpLocalDetector).
Proof.
  split; [reflexivity|]. split; [|split].
  - intros d [cidr H|interfaceName H|interfacePrefix H].
    + apply NewDetectLocalByCIDR_ok in H. subst d. reflexivity.
    + apply NewDetectLocalByBridgeInterface_ok in H. subst d. reflexivity.
    + apply NewDetectLocalByInterfaceNamePrefix_ok in H. subst d.
      reflexivity.
  - intros [n|d|d|d]; simpl; split; intros H;
      try reflexivity; discriminate H.
  - intros [[]|d|d|d]; simpl; split; intros H;
      try reflexivity; discriminate H.
Qed.

End Constructors.

(** C4: [NewNoOpLocalDetector] has no parameter and no error result (it
    is a detector, not a pair of a detector and an error), and on the
    detector it returns the four accessors [IfLocal], [IfNotLocal],
    [IfLocalNFT] and [IfNotLocalNFT] return the empty token sequence. *)
Theorem NewNoOpLocalDetector_tokens :
  tokens_of NewNoOpLocalDetector =
  {| legacy_local := []; legacy_not_local := [];
     nft_local := []; nft_not_local := [] |} /\
  is_noop NewNoOpLocalDetector = true.
Proof.
  split.
  - unfold tokens_of, returns, NewNoOpLocalDetector. reflexivity.
  - reflexivity.
Qed.

(** C5: for every non-empty interface name n,
    [NewDetectLocalByBridgeInterface] returns a detector, without error,
    whose token sequences are legacy-local = ["-i", n], legacy-not-local =
    ["!", "-i", n], nft-local = ["iif", n] and nft-not-local = ["iif",
    "!=", n]. *)
Theorem NewDetectLocalByBridgeInterface_tokens (interfaceName : string) :
  interfaceName <> "" ->
  exists d,
    NewDetectLocalByBridgeInterface interfaceName = (Some d, None) /\
    tokens_of d =
    {| legacy_local := ["-i"; interfaceName];
       legacy_not_local := ["!"; "-i"; interfaceName];
       nft_local := ["iif"; interfaceName];
       nft_not_local := ["iif"; "!="; interfaceName] |}.
Proof.
  intros Hne. unfold NewDetectLocalByBridgeInterface.
  rewrite (len_nonempty _ Hne).
  eexists. split; reflexivity.
Qed.

(** C6: for every non-empty prefix p,
    [NewDetectLocalByInterfaceNamePrefix] returns a detector, without
    error, whose legacy sequences use p with "+" appended and whose nft
    sequences use p with "*" appended: legacy-local = ["-i", p + "+"],
    legacy-not-local = ["!", "-i", p + "+"], nft-local = ["iif", p + "*"],
    nft-not-local = ["iif", "!=", p + "*"]. *)
Theorem NewDetectLocalByInterfaceNamePrefix_tokens
    (interfacePrefix : string) :
  interfacePrefix <> "" ->
  exists d,
    NewDetectLocalByInterfaceNamePrefix interfacePrefix = (Some d, None) /\
    tokens_of d =
    {| legacy_local := ["-i"; interfacePrefix ++ "+"];
       legacy_not_local := ["!"; "-i"; interfacePrefix ++ "+"];
       nft_local := ["iif"; interfacePrefix ++ "*"];
       nft_not_local := ["iif"; "!="; interfacePrefix ++ "*"] |}.
Proof.
  intros Hne. unfold NewDetectLocalByInterfaceNamePrefix.
  rewrite (len_nonempty _ Hne).
  eexists. split; reflexivity.
Qed.

(** C7: [NewDetectLocalByBridgeInterface] returns no detector and an
    error whose message is "no bridge interface name set" exactly when
    its input is the empty string, and
    [NewDetectLocalByInterfaceNamePrefix] returns no detector and an
    error whose message is "no interface prefix set" exactly when its
    input is the empty string; on every other input each returns a
    detector and no error. *)
Theorem empty_input_is_the_only_failure :
  (forall interfaceName,
     (interfaceName = "" /\
      exists e, NewDetectLocalByBridgeInterface interfaceName =
                (None, Some e) /\
                Error e = "no bridge interface name set") \/
     (interfaceName <> "" /\
      exists d, NewDetectLocalByBridgeInterface interfaceName =
                (Some d, None))) /\
  (forall interfacePrefix,
     (interfacePrefix = "" /\
      exists e, NewDetectLocalByInterfaceNamePrefix interfacePrefix =
                (None, Some e) /\
                Error e = "no interface prefix set") \/
     (interfacePrefix <> "" /\
      exists d, NewDetectLocalByInterfaceNamePrefix interfacePrefix =
                (Some d, None))).
Proof.
  split; intros s.
  - unfold NewDetectLocalByBridgeInterface.
    destruct (len s =? 0)%Z eqn:E.
    + left. split; [apply len_zero_iff; exact E|].
      eexists. split; reflexivity.
    + right. split.
      * intros ->. discriminate E.
      * eexists. reflexivity.
  - unfold NewDetectLocalByInterfaceNamePrefix.
    destruct (len s =? 0)%Z eqn:E.
    + left. split; [apply len_zero_iff; exact E|].
      eexists. split; reflexivity.
    + right. split.
      * intros ->. discriminate E.
      * eexists. reflexivity.
Qed.

(** C9: the five accessors only read. On every detector, whatever calls
    of accessors came before, the detector is left as it was constructed
    (so are its four token sequences), every accessor returns what it
    returned on the detector as constructed, and calling the same accessor
    n times returns n times the same value. *)
Theorem accessors_are_pure (d : LocalTrafficDetector) :
  (forall before, leaves (calls before) d = d) /\
  (forall before, tokens_of (leaves (calls before) d) = tokens_of d) /\
  (forall before a,
     returns (call a) (leaves (calls before) d) = returns (call a) d) /\
  (forall a n,
     returns (calls (repeat a n)) d = repeat (returns (call a) d) n).
Proof.
  split; [|split; [|split]].
  - intros before. apply calls_leaves.
  - intros before. rewrite calls_leaves. reflexivity.
  - intros before a. rewrite calls_leaves. reflexivity.
  - intros a n. rewrite calls_returns.
    induction n as [|n IH]; simpl.
    + reflexivity.
    + rewrite IH. reflexivity.
Qed.

(** ** The parser and the syntax *)

Module ParserFacts.

Import forkednet Syntax Shapes.

Local Open Scope Z_scope.

(** *** Characters *)

Lemma digit10_spec (c : ascii) :
  digit10 c = if between "0" "9" c then Some (code c - code "0") else None.
Proof. destruct c as [[] [] [] [] [] [] [] []]; reflexivity. Qed.

Lemma digit16_spec (c : ascii) : digit16 c = xdigit c.
Proof. destruct c as [[] [] [] [] [] [] [] []]; reflexivity. Qed.

Lemma digit10_range (c : ascii) (d : Z) : digit10 c = Some d -> 0 <= d <= 9.
Proof.
  destruct c as [[] [] [] [] [] [] [] []]; simpl; intros H;
    try discriminate H; injection H as <-; lia.
Qed.

Lemma digit16_range (c : ascii) (d : Z) : digit16 c = Some d -> 0 <= d <= 15.
Proof.
  destruct c as [[] [] [] [] [] [] [] []]; simpl; intros H;
    try discriminate H; injection H as <-; lia.
Qed.

Lemma digit10_digit16 (c : ascii) (d : Z) :
  digit10 c = Some d -> digit16 c = Some d.
Proof.
  destruct c as [[] [] [] [] [] [] [] []]; simpl; intros H;
    try discriminate H; exact H.
Qed.

(** *** Strings *)

Lemma len_String (c : ascii) (s : string) : len (String c s) = len s + 1.
Proof. unfold len. simpl String.length. lia. Qed.

Lemma len_nonneg (s : string) : 0 <= len s.
Proof. unfold len. lia. Qed.

Lemma len_app (s t : string) : len (s ++ t) = len s + len t.
Proof.
  induction s as [|c s IH].
  - unfold len. simpl. lia.
  - change (String c s ++ t)%string with (String c (s ++ t)).
    rewrite !len_String, IH. lia.
Qed.

Lemma len_0 (s : string) : len s = 0 -> s = "".
Proof.
  destruct s as [|c s]; [reflexivity|]. intros H.
  rewrite len_String in H. pose proof (len_nonneg s). lia.
Qed.

Lemma append_assoc (s t u : string) : ((s ++ t) ++ u = s ++ t ++ u)%string.
Proof. induction s as [|c s IH]; simpl; [reflexivity|]. now rewrite IH. Qed.

Lemma append_nil_r (s : string) : (s ++ "")%string = s.
Proof. induction s as [|c s IH]; simpl; [reflexivity|]. now rewrite IH. Qed.

Lemma drop_app (s t : string) : drop (String.length s) (s ++ t) = t.
Proof. induction s as [|c s IH]; simpl; [destruct t; reflexivity|exact IH]. Qed.

Lemma take_app (s t : string) : take (String.length s) (s ++ t) = s.
Proof.
  induction s as [|c s IH]; simpl; [destruct t; reflexivity|now rewrite IH].
Qed.

Lemma slice_from_app (s t : string) : slice_from (s ++ t) (len s) = t.
Proof. unfold slice_from, len. rewrite Nat2Z.id. apply drop_app. Qed.

Lemma slice_to_app (s t : string) : slice_to (s ++ t) (len s) = s.
Proof. unfold slice_to, len. rewrite Nat2Z.id. apply take_app. Qed.

Lemma slice_from_1 (c : ascii) (s : string) : slice_from (String c s) 1 = s.
Proof. reflexivity. Qed.

Lemma index_is_0 (c c' : ascii) (s : string) :
  index_is (String c s) 0 c' = Ascii.eqb c c'.
Proof. reflexivity. Qed.

Lemma index_is_nil (i : Z) (c : ascii) : index_is "" i c = false.
Proof.
  unfold index_is, index. destruct (i <? 0); [reflexivity|].
  destruct (Z.to_nat i); reflexivity.
Qed.

Lemma get_app (s t : string) :
  String.get (String.length s) (s ++ t) = String.get 0 t.
Proof. induction s as [|a s IH]; simpl; [reflexivity|exact IH]. Qed.

Lemma index_is_app (s t : string) (c : ascii) :
  index_is (s ++ t) (len s) c = index_is t 0 c.
Proof.
  unfold index_is, index.
  pose proof (len_nonneg s) as Hs.
  destruct (len s <? 0) eqn:E; [apply Z.ltb_lt in E; lia|].
  unfold len. rewrite Nat2Z.id, get_app. reflexivity.
Qed.

(** *** Numerals *)

(** What [dtoi] and [xtoi] have in common: a loop that reads digits of
    some base into [n], counts them in [i], gives up when [n] reaches
    [big], and fails when it has read no digit. *)
Section Scan.

Variable digit : ascii -> option Z.
Variable base : Z.
Variable loop : string -> Z -> Z -> Z * Z * bool.
Variable overflow none : Z -> Z * Z.

Hypothesis digit_nonneg : forall c d, digit c = Some d -> 0 <= d.
Hypothesis base_pos : 1 <= base.
Hypothesis loop_nil : forall n i,
  loop "" n i = if i =? 0 then (none i, false) else (n, i, true).
Hypothesis loop_cons : forall c s n i,
  loop (String c s) n i =
  match digit c with
  | Some d =>
      if big <=? n * base + d then (overflow i, false)
      else loop s (n * base + d) (i + 1)
  | None => if i =? 0 then (none i, false) else (n, i, true)
  end.

Lemma horner_mono (s : string) (acc m : Z) :
  0 <= acc -> horner digit base acc s = Some m -> acc <= m.
Proof.
  revert acc. induction s as [|c s IH]; simpl; intros acc Hacc H.
  - injection H as <-. lia.
  - destruct (digit c) as [d|] eqn:Ed; [|discriminate H].
    apply digit_nonneg in Ed. apply IH in H; nia.
Qed.

Lemma scan_complete (d rest : string) (n i m : Z) :
  horner digit base n d = Some m -> 0 <= n -> m < big ->
  no_digit_first digit rest -> 0 <= i -> d <> "" \/ 0 < i ->
  loop (d ++ rest) n i = (m, i + len d, true).
Proof.
  revert n i. induction d as [|c d IH]; intros n i H Hn Hm Hrest Hi Hd.
  - simpl in H. injection H as <-. simpl append.
    assert (E : (i =? 0) = false).
    { apply Z.eqb_neq. destruct Hd as [Hd|Hd]; [contradiction|lia]. }
    replace (i + len "") with i by (unfold len; simpl; lia).
    destruct rest as [|c rest].
    + rewrite loop_nil, E. reflexivity.
    + simpl in Hrest. rewrite loop_cons, Hrest, E. reflexivity.
  - simpl in H. destruct (digit c) as [dc|] eqn:Ec; [|discriminate H].
    change (String c d ++ rest)%string with (String c (d ++ rest)).
    rewrite loop_cons, Ec.
    pose proof (digit_nonneg _ _ Ec) as Hdc.
    assert (Hn1 : 0 <= n * base + dc) by nia.
    pose proof (horner_mono _ _ _ Hn1 H) as Hle.
    destruct (big <=? n * base + dc) eqn:E; [apply Z.leb_le in E; lia|].
    rewrite (IH (n * base + dc) (i + 1)); try assumption; try lia.
    rewrite len_String. f_equal. f_equal. lia.
Qed.

Lemma scan_sound (s : string) (n i m c : Z) :
  loop s n i = (m, c, true) -> 0 <= i ->
  exists d rest,
    s = (d ++ rest)%string /\ horner digit base n d = Some m /\
    c = i + len d /\ no_digit_first digit rest /\ (d <> "" \/ 0 < i).
Proof.
  revert n i. induction s as [|a s IH]; intros n i H Hi.
  - rewrite loop_nil in H. destruct (i =? 0) eqn:E; [discriminate H|].
    injection H as <- <-. exists "", "". apply Z.eqb_neq in E.
    repeat split; try reflexivity; [unfold len; simpl; lia | right; lia].
  - rewrite loop_cons in H. destruct (digit a) as [da|] eqn:Ea.
    + destruct (big <=? n * base + da); [discriminate H|].
      apply IH in H; [|lia].
      destruct H as (d & rest & -> & Hh & -> & Hrest & _).
      exists (String a d), rest. simpl. rewrite Ea.
      repeat split; try assumption.
      * rewrite len_String. lia.
      * left. discriminate.
    + destruct (i =? 0) eqn:E; [discriminate H|].
      injection H as <- <-. exists "", (String a s). apply Z.eqb_neq in E.
      repeat split; try reflexivity; try assumption;
        [unfold len; simpl; lia | right; lia].
Qed.

Lemma numeral_horner (s : string) :
  s <> "" -> numeral digit base s = horner digit base 0 s.
Proof. destruct s; [contradiction|reflexivity]. Qed.

Lemma numeral_nonempty (s : string) (m : Z) :
  numeral digit base s = Some m -> s <> "".
Proof. destruct s; [discriminate|discriminate]. Qed.

Lemma numeral_nonneg (s : string) (m : Z) :
  numeral digit base s = Some m -> 0 <= m.
Proof.
  intros H. pose proof (numeral_nonempty _ _ H) as Hs.
  rewrite (numeral_horner _ Hs) in H. apply horner_mono in H; lia.
Qed.

(** A numeral below [big], followed by something that is no digit, is
    read whole. *)
Lemma scan_numeral (d rest : string) (m : Z) :
  numeral digit base d = Some m -> m < big -> no_digit_first digit rest ->
  loop (d ++ rest) 0 0 = (m, len d, true).
Proof.
  intros H Hm Hrest. pose proof (numeral_nonempty _ _ H) as Hd.
  rewrite (numeral_horner _ Hd) in H.
  rewrite (scan_complete d rest 0 0 m); auto; lia.
Qed.

(** What the loop reads is a numeral, and the input goes on after it
    with something that is no digit. *)
Lemma scan_numeral_inv (s : string) (m c : Z) :
  loop s 0 0 = (m, c, true) ->
  exists d rest,
    s = (d ++ rest)%string /\ numeral digit base d = Some m /\
    c = len d /\ no_digit_first digit rest.
Proof.
  intros H. apply scan_sound in H; [|lia].
  destruct H as (d & rest & -> & Hh & -> & Hrest & [Hd|Hd]); [|lia].
  exists d, rest. rewrite (numeral_horner _ Hd).
  repeat split; assumption || reflexivity.
Qed.

End Scan.

Lemma dtoi_loop_cons (c : ascii) (s : string) (n i : Z) :
  dtoi_loop (String c s) n i =
  match digit10 c with
  | Some d =>
      if big <=? n * 10 + d then (big, i, false)
      else dtoi_loop s (n * 10 + d) (i + 1)
  | None => if i =? 0 then (0, 0, false) else (n, i, true)
  end.
Proof.
  simpl. rewrite digit10_spec. destruct (between "0" "9" c); reflexivity.
Qed.

Lemma xtoi_loop_cons (c : ascii) (s : string) (n i : Z) :
  xtoi_loop (String c s) n i =
  match digit16 c with
  | Some d =>
      if big <=? n * 16 + d then (0, i, false)
      else xtoi_loop s (n * 16 + d) (i + 1)
  | None => if i =? 0 then (0, i, false) else (n, i, true)
  end.
Proof. simpl. rewrite digit16_spec. reflexivity. Qed.

Lemma dtoi_numeral (d rest : string) (m : Z) :
  decimal d = Some m -> m < big -> no_digit_first digit10 rest ->
  dtoi (d ++ rest) = (m, len d, true).
Proof.
  apply (scan_numeral digit10 10 dtoi_loop
           (fun i => (big, i)) (fun _ => (0, 0))).
  - intros c x H. apply digit10_range in H. lia.
  - lia.
  - reflexivity.
  - apply dtoi_loop_cons.
Qed.

Lemma dtoi_inv (s : string) (m c : Z) :
  dtoi s = (m, c, true) ->
  exists d rest,
    s = (d ++ rest)%string /\ decimal d = Some m /\ c = len d /\
    no_digit_first digit10 rest.
Proof.
  apply (scan_numeral_inv digit10 10 dtoi_loop
           (fun i => (big, i)) (fun _ => (0, 0))).
  - reflexivity.
  - apply dtoi_loop_cons.
Qed.

Lemma xtoi_numeral (d rest : string) (m : Z) :
  hexadecimal d = Some m -> m < big -> no_digit_first digit16 rest ->
  xtoi (d ++ rest) = (m, len d, true).
Proof.
  apply (scan_numeral digit16 16 xtoi_loop
           (fun i => (0, i)) (fun i => (0, i))).
  - intros c x H. apply digit16_range in H. lia.
  - lia.
  - reflexivity.
  - apply xtoi_loop_cons.
Qed.

Lemma xtoi_inv (s : string) (m c : Z) :
  xtoi s = (m, c, true) ->
  exists d rest,
    s = (d ++ rest)%string /\ hexadecimal d = Some m /\ c = len d /\
    no_digit_first digit16 rest.
Proof.
  apply (scan_numeral_inv digit16 16 xtoi_loop
           (fun i => (0, i)) (fun i => (0, i))).
  - reflexivity.
  - apply xtoi_loop_cons.
Qed.

(** *** Dotted-decimal addresses *)

Lemma octet_nonempty (o : string) : octet o -> o <> "".
Proof. intros (n & H & _). destruct o; [discriminate H|discriminate]. Qed.

Lemma len_nonempty_neq (s : string) : s <> "" -> (len s =? 0) = false.
Proof.
  intros H. apply Z.eqb_neq. intros E. apply H, len_0, E.
Qed.

Lemma index_is_0_inv (s : string) (c : ascii) :
  index_is s 0 c = true -> exists s', s = String c s'.
Proof.
  destruct s as [|a s]; [rewrite index_is_nil; discriminate|].
  rewrite index_is_0. intros H. apply Ascii.eqb_eq in H. subst a.
  exists s. reflexivity.
Qed.

Lemma octets_no_digit (n : nat) (i : Z) (s : string) :
  0 < i -> octets n i s -> no_digit_first digit10 s.
Proof.
  intros Hi. destruct n as [|n]; simpl.
  - intros ->. exact I.
  - intros (o & rest & _ & -> & _). unfold dot_before.
    destruct (0 <? i) eqn:E; [reflexivity|]. apply Z.ltb_ge in E. lia.
Qed.

Lemma parseIPv4_loop_complete (fuel : nat) (i : Z) (s : string)
    (p : list byte) :
  0 <= i -> octets fuel i s -> exists ip, parseIPv4_loop fuel i s p = Some ip.
Proof.
  revert i s p. induction fuel as [|fuel IH]; intros i s p Hi H.
  - simpl in H. subst s. simpl. eexists. reflexivity.
  - destruct H as (o & rest & Ho & -> & Hrest).
    pose proof (octet_nonempty _ Ho) as Hne.
    destruct Ho as (n & Hn & Hle).
    assert (Hd : dtoi (o ++ rest) = (n, len o, true)).
    { apply dtoi_numeral; [exact Hn | unfold big; lia |].
      apply (octets_no_digit fuel (i + 1)); [lia | exact Hrest]. }
    assert (Hlen : (len (dot_before i ++ o ++ rest) =? 0) = false).
    { apply len_nonempty_neq. unfold dot_before.
      destruct (0 <? i); [discriminate|].
      destruct o; [contradiction|discriminate]. }
    cbn [parseIPv4_loop]. rewrite Hlen. unfold dot_before.
    destruct (0 <? i) eqn:E.
    + change ("." ++ o ++ rest)%string with (String "." (o ++ rest)).
      rewrite index_is_0, slice_from_1. simpl negb. cbv iota.
      rewrite Hd.
      replace (0xFF <? n) with false by (symmetry; apply Z.ltb_ge; lia).
      simpl orb. cbv iota. rewrite slice_from_app.
      apply IH; [lia | exact Hrest].
    + simpl append. simpl negb. cbv iota.
      rewrite Hd.
      replace (0xFF <? n) with false by (symmetry; apply Z.ltb_ge; lia).
      simpl orb. cbv iota. rewrite slice_from_app.
      apply IH; [lia | exact Hrest].
Qed.

Lemma parseIPv4_loop_sound (fuel : nat) (i : Z) (s : string)
    (p : list byte) (ip : IP) :
  parseIPv4_loop fuel i s p = Some ip -> octets fuel i s.
Proof.
  revert i s p. induction fuel as [|fuel IH]; intros i s p H.
  - simpl in H. destruct (len s =? 0) eqn:E; [|discriminate H].
    apply Z.eqb_eq in E. apply len_0, E.
  - cbn [parseIPv4_loop] in H.
    destruct (len s =? 0) eqn:E; [discriminate H|].
    assert (Hs : exists s1, s = (dot_before i ++ s1)%string /\
      match dtoi s1 with
      | (n, c, ok) =>
          if negb ok || (0xFF <? n) then None
          else
            parseIPv4_loop fuel (i + 1) (slice_from s1 c)
              (set p i (to_byte n))
      end = Some ip).
    { unfold dot_before. destruct (0 <? i).
      - destruct (index_is s 0 ".") eqn:Edot; [|discriminate H].
        apply index_is_0_inv in Edot. destruct Edot as [s1 ->].
        exists s1. split; [reflexivity|]. exact H.
      - exists s. split; [reflexivity|]. exact H. }
    destruct Hs as (s1 & -> & H1).
    destruct (dtoi s1) as [[n c] ok] eqn:Ed.
    destruct ok; [|discriminate H1].
    destruct (0xFF <? n) eqn:En; [discriminate H1|]. simpl in H1.
    apply Z.ltb_ge in En.
    apply dtoi_inv in Ed. destruct Ed as (o & rest & -> & Ho & -> & _).
    rewrite slice_from_app in H1. apply IH in H1.
    exists o, rest. split; [|split; [reflexivity|exact H1]].
    exists n. split; [exact Ho|exact En].
Qed.

Lemma octets_dotted_quad (s : string) : octets 4 0 s <-> dotted_quad s.
Proof.
  simpl. unfold dot_before. simpl. split.
  - intros (a & r1 & Ha & -> & b & r2 & Hb & -> & c & r3 & Hc & -> &
            d & r4 & Hd & -> & ->).
    exists a, b, c, d. rewrite append_nil_r. repeat split; assumption.
  - intros (a & b & c & d & Ha & Hb & Hc & Hd & ->).
    exists a, ("." ++ b ++ "." ++ c ++ "." ++ d)%string.
    split; [exact Ha|]. split; [reflexivity|].
    exists b, ("." ++ c ++ "." ++ d)%string.
    split; [exact Hb|]. split; [reflexivity|].
    exists c, ("." ++ d)%string.
    split; [exact Hc|]. split; [reflexivity|].
    exists d, ""%string.
    split; [exact Hd|]. split; [now rewrite append_nil_r|reflexivity].
Qed.

(** [parseIPv4] accepts exactly the dotted quads. *)
Lemma parseIPv4_accepts (s : string) :
  (exists ip, parseIPv4 s = Some ip) <-> dotted_quad s.
Proof.
  rewrite <- octets_dotted_quad. unfold parseIPv4. split.
  - intros [ip H]. apply parseIPv4_loop_sound in H. exact H.
  - intros H. apply parseIPv4_loop_complete; [lia|exact H].
Qed.

(** *** Fields of an IPv6 address *)

Lemma numeral_starts (digit : ascii -> option Z) (base : Z) (s : string)
    (n : Z) :
  numeral digit base s = Some n ->
  exists c s', s = String c s' /\ digit c <> None.
Proof.
  destruct s as [|c s]; [discriminate|]. simpl. intros H.
  exists c, s. split; [reflexivity|].
  destruct (digit c); [discriminate|discriminate H].
Qed.

Lemma group_starts_hex (g : string) : group g -> starts_hex g.
Proof. intros (n & H & _). exact (numeral_starts _ _ _ _ H). Qed.

(** Read in base 16, the digits of a decimal numeral give at most the
    square of what they give in base 10. *)
Lemma horner_hex_le_square (d : string) (a b n : Z) :
  0 <= a -> 0 <= b -> b <= a * a -> horner digit10 10 a d = Some n ->
  exists m, horner digit16 16 b d = Some m /\ m <= n * n.
Proof.
  revert a b. induction d as [|c d IH]; simpl; intros a b Ha Hb Hab H.
  - injection H as <-. exists b. split; [reflexivity|exact Hab].
  - destruct (digit10 c) as [x|] eqn:Ec; [|discriminate H].
    rewrite (digit10_digit16 _ _ Ec). apply digit10_range in Ec.
    apply (IH (a * 10 + x) (b * 16 + x)); [nia | nia | nia | exact H].
Qed.

(** An octet is also a group. *)
Lemma octet_group (o : string) : octet o -> group o.
Proof.
  intros (n & H & Hn). unfold group, hexadecimal, decimal, numeral in *.
  destruct o as [|c o]; [discriminate H|].
  assert (H0 : 0 <= n).
  { apply (horner_mono digit10 10) in H; try lia.
    intros a x Ha. apply digit10_range in Ha. lia. }
  destruct (horner_hex_le_square (String c o) 0 0 n) as (m & Hm & Hle);
    try lia; [exact H|].
  exists m. split; [exact Hm|]. nia.
Qed.

Lemma dotted_quad_starts_hex (q : string) : dotted_quad q -> starts_hex q.
Proof.
  intros (a & b & c & d & Ha & _ & _ & _ & ->).
  apply octet_group, group_starts_hex in Ha.
  destruct Ha as (x & a' & -> & Hx). exists x. eexists.
  split; [reflexivity|exact Hx].
Qed.

Lemma join_cons (f : string) (l : list string) :
  l <> [] -> join (f :: l) = (f ++ ":" ++ join l)%string.
Proof. destruct l; [contradiction|reflexivity]. Qed.

Lemma starts_hex_app (s t : string) : starts_hex s -> starts_hex (s ++ t).
Proof.
  intros (c & s' & -> & Hc). exists c, (s' ++ t)%string.
  split; [reflexivity|exact Hc].
Qed.

Lemma fields_starts_hex (l : list string) (n : Z) :
  fields l n -> l <> [] -> starts_hex (join l).
Proof.
  intros H Hl. inversion H as [|q Hq|g l' n' Hg Hl']; subst.
  - contradiction.
  - simpl. apply dotted_quad_starts_hex, Hq.
  - destruct l' as [|f l']; [simpl; apply group_starts_hex, Hg|].
    rewrite join_cons by discriminate.
    apply starts_hex_app, group_starts_hex, Hg.
Qed.

Lemma fields_nonneg (l : list string) (n : Z) : fields l n -> 0 <= n.
Proof. induction 1; lia. Qed.

Lemma fields_nil_inv (n : Z) : fields [] n -> n = 0.
Proof. intros H. inversion H. reflexivity. Qed.

(** A list of groups is a list of fields, worth its length. *)
Lemma groups_fields (l : list string) :
  Forall group l -> fields l (Z.of_nat (length l)).
Proof.
  induction 1 as [|g l Hg _ IH].
  - constructor.
  - replace (Z.of_nat (length (g :: l))) with (Z.of_nat (length l) + 1)
      by (simpl length; lia).
    constructor; assumption.
Qed.

Lemma starts_hex_nonempty (s : string) : starts_hex s -> s <> "".
Proof. intros (c & s' & -> & _). discriminate. Qed.

Lemma starts_hex_no_colon (s : string) :
  starts_hex s -> index_is s 0 ":" = false.
Proof.
  intros (c & s' & -> & Hc). rewrite index_is_0.
  destruct (Ascii.eqb c ":") eqn:E; [|reflexivity].
  apply Ascii.eqb_eq in E. subst c. exfalso. apply Hc. reflexivity.
Qed.

(** *** One round of the loop of [parseIPv6] *)

Lemma parseIPv6_loop_S (fuel : nat) (s : string) (ip : IP) (i ellipsis : Z) :
  parseIPv6_loop (S fuel) (mkV6 s ip i ellipsis) =
  if negb (i <? 16) then Some (mkV6 s ip i ellipsis)
  else
    let '(n, c, ok) := xtoi s in
    if negb ok || (0xFFFF <? n) then None
    else if (c <? len s) && index_is s c "." then quad_round s ip i ellipsis
    else
      group_round fuel (slice_from s c)
        (set (set ip i (to_byte (Z.shiftr n 8))) (i + 1) (to_byte n))
        (i + 2) ellipsis.
Proof. reflexivity. Qed.

Lemma group_round_end (fuel : nat) (ip : IP) (i ellipsis : Z) :
  group_round fuel "" ip i ellipsis = Some (mkV6 "" ip i ellipsis).
Proof. reflexivity. Qed.

Lemma group_round_colon (fuel : nat) (s : string) (ip : IP) (i ellipsis : Z) :
  s <> "" -> index_is s 0 ":" = false ->
  group_round fuel (":" ++ s) ip i ellipsis =
  parseIPv6_loop fuel (mkV6 s ip i ellipsis).
Proof.
  intros Hs Hc. unfold group_round.
  change (":" ++ s)%string with (String ":" s).
  rewrite len_String, index_is_0, slice_from_1. simpl negb. simpl orb.
  pose proof (len_nonneg s). pose proof (len_nonempty_neq _ Hs) as E.
  apply Z.eqb_neq in E.
  replace (len s + 1 =? 0) with false by (symmetry; apply Z.eqb_neq; lia).
  replace (len s + 1 =? 1) with false by (symmetry; apply Z.eqb_neq; lia).
  cbv zeta. rewrite Hc. reflexivity.
Qed.

Lemma group_round_ellipsis (fuel : nat) (s : string) (ip : IP)
    (i ellipsis : Z) :
  ellipsis < 0 ->
  group_round fuel ("::" ++ s) ip i ellipsis =
  if len s =? 0 then Some (mkV6 s ip i i)
  else parseIPv6_loop fuel (mkV6 s ip i i).
Proof.
  intros He. unfold group_round.
  change ("::" ++ s)%string with (String ":" (String ":" s)).
  rewrite !len_String, index_is_0, slice_from_1. simpl negb. simpl orb.
  pose proof (len_nonneg s).
  replace (len s + 1 + 1 =? 0) with false by (symmetry; apply Z.eqb_neq; lia).
  replace (len s + 1 + 1 =? 1) with false by (symmetry; apply Z.eqb_neq; lia).
  cbv zeta. rewrite index_is_0, slice_from_1. simpl Ascii.eqb. cbv iota.
  replace (0 <=? ellipsis) with false by (symmetry; apply Z.leb_gt; lia).
  reflexivity.
Qed.

Lemma group_round_inv (fuel : nat) (g s : string) (ip : IP)
    (i ellipsis : Z) (st' : v6state) :
  i < 16 -> group g ->
  group_round fuel s ip (i + 2) ellipsis = Some st' ->
  round fuel (g ++ s) i ellipsis st'.
Proof.
  intros Hi Hg H. unfold group_round in H.
  destruct (len s =? 0) eqn:E0.
  { apply Z.eqb_eq, len_0 in E0. subst s. injection H as <-.
    rewrite append_nil_r.
    apply (round_last _ _ _ _ _ ip); [exact Hi|exact Hg|reflexivity]. }
  destruct (index_is s 0 ":") eqn:Ec; [|discriminate H].
  destruct (len s =? 1) eqn:E1; [discriminate H|]. simpl in H.
  apply index_is_0_inv in Ec. destruct Ec as [s1 ->].
  rewrite slice_from_1 in H. rewrite len_String in E1.
  assert (Hs1 : s1 <> "").
  { intros ->. discriminate E1. }
  destruct (index_is s1 0 ":") eqn:Ec1.
  - destruct (0 <=? ellipsis) eqn:Ee; [discriminate H|].
    apply Z.leb_gt in Ee.
    apply index_is_0_inv in Ec1. destruct Ec1 as [s2 ->].
    rewrite slice_from_1 in H.
    destruct (len s2 =? 0) eqn:E2.
    + apply Z.eqb_eq, len_0 in E2. subst s2. injection H as <-.
      apply (round_ellipsis_last _ _ _ _ _ g ip);
        [exact Hi | exact Hg | reflexivity | exact Ee | reflexivity].
    + apply (round_ellipsis_next _ _ _ _ _ g s2 ip);
        [exact Hi | exact Hg | reflexivity | | exact Ee | exact H].
      intros ->. discriminate E2.
  - apply (round_next _ _ _ _ _ g s1 ip);
      [exact Hi | exact Hg | reflexivity | exact Hs1 | exact H].
Qed.

(** Every round that does not fail is one of those. *)
Lemma parseIPv6_loop_round (fuel : nat) (s : string) (ip : IP)
    (i ellipsis : Z) (st' : v6state) :
  parseIPv6_loop (S fuel) (mkV6 s ip i ellipsis) = Some st' ->
  round fuel s i ellipsis st'.
Proof.
  rewrite parseIPv6_loop_S. intros H.
  destruct (i <? 16) eqn:Ei; simpl in H.
  2:{ injection H as <-. apply Z.ltb_ge in Ei.
      apply (round_full _ _ _ _ _ ip); [exact Ei|reflexivity]. }
  apply Z.ltb_lt in Ei.
  destruct (xtoi s) as [[n c] ok] eqn:Ex.
  destruct ok; [|discriminate H].
  destruct (0xFFFF <? n) eqn:En; [discriminate H|]. simpl in H.
  apply Z.ltb_ge in En.
  destruct ((c <? len s) && index_is s c ".") eqn:Edot.
  - unfold quad_round in H.
    destruct ((ellipsis <? 0) && negb (i =? 12)); [discriminate H|].
    destruct (16 <? i + 4) eqn:E4; [discriminate H|]. apply Z.ltb_ge in E4.
    destruct (parseIPv4 s) as [ip4|] eqn:E; [|discriminate H].
    injection H as <-.
    eapply round_quad; [exact Ei| |exact E4|reflexivity].
    apply parseIPv4_accepts. exists ip4. exact E.
  - apply xtoi_inv in Ex. destruct Ex as (g & rest & -> & Hg & -> & _).
    rewrite slice_from_app in H.
    apply (group_round_inv _ g) in H; [exact H|exact Ei|].
    exists n. split; [exact Hg|exact En].
Qed.

(** *** The loop of [parseIPv6] reads fields *)

Lemma fields_one_group (g : string) : group g -> fields [g] 1.
Proof. intros Hg. apply (fields_cons g [] 0 Hg fields_nil). Qed.

(** When the loop ends at the end of the input, the input was a list of
    fields, or a list of groups, an ellipsis and a list of fields; the
    position in the address has advanced by what they are worth and is
    at most 16. *)
Lemma parseIPv6_loop_sound (fuel : nat) (s : string) (ip : IP) (k ellipsis : Z)
    (st' : v6state) :
  0 <= k ->
  parseIPv6_loop fuel (mkV6 s ip (2 * k) ellipsis) = Some st' ->
  v6_s st' = "" -> s <> "" ->
  v6_i st' <= 16 /\
  ((exists r m,
      fields r m /\ r <> [] /\ s = join r /\
      v6_i st' = 2 * (k + m) /\ v6_ellipsis st' = ellipsis) \/
   (exists l r m,
      Forall group l /\ l <> [] /\ fields r m /\
      s = (join l ++ "::" ++ join r)%string /\
      v6_i st' = 2 * (k + Z.of_nat (length l) + m) /\
      ellipsis < 0 /\ 0 <= v6_ellipsis st')).
Proof.
  revert s ip k ellipsis.
  induction fuel as [|fuel IH]; intros s ip k ellipsis Hk H Hend Hs.
  - simpl in H. injection H as <-. simpl in Hend. contradiction.
  - apply parseIPv6_loop_round in H.
    destruct H as [ip' Hi E | ip' Hi Hq H4 E | ip' Hi Hg E
                  | g s1 ip' Hi Hg E Hs1 H | g ip' Hi Hg E He E'
                  | g s1 ip' Hi Hg E Hs1 He H].
    + subst st'. simpl in Hend. contradiction.
    + subst st'. cbn [v6_i v6_s v6_ellipsis]. split; [lia|]. left.
      exists [s], 2. repeat split.
      * constructor. exact Hq.
      * discriminate.
      * lia.
    + subst st'. cbn [v6_i v6_s v6_ellipsis]. split; [lia|]. left.
      exists [s], 1. repeat split.
      * apply fields_one_group, Hg.
      * discriminate.
      * lia.
    + replace (2 * k + 2) with (2 * (k + 1)) in H by lia.
      apply IH in H; [|lia|exact Hend|exact Hs1].
      destruct H as [Hle [(r & m & Hr & Hne & -> & Hi' & He')
                         |(l & r & m & Hl & Hne & Hr & -> & Hi' & He & He')]];
        (split; [exact Hle|]).
      * left. exists (g :: r), (m + 1). repeat split.
        -- constructor; assumption.
        -- discriminate.
        -- rewrite join_cons by exact Hne. exact E.
        -- lia.
        -- exact He'.
      * right. exists (g :: l), r, m. repeat split; try assumption.
        -- constructor; assumption.
        -- discriminate.
        -- rewrite join_cons by exact Hne. rewrite E.
           rewrite !append_assoc. reflexivity.
        -- simpl length. lia.
    + subst st'. cbn [v6_i v6_s v6_ellipsis]. split; [lia|]. right.
      exists [g], [], 0. repeat split; try assumption.
      * constructor; [exact Hg|constructor].
      * discriminate.
      * constructor.
      * simpl length. lia.
      * lia.
    + replace (2 * k + 2) with (2 * (k + 1)) in H by lia.
      apply IH in H; [|lia|exact Hend|exact Hs1].
      destruct H as [Hle [(r & m & Hr & Hne & -> & Hi' & He')
                         |(l & r & m & Hl & Hne & Hr & -> & Hi' & He'' & He')]];
        [|lia].
      split; [exact Hle|]. right.
      exists [g], r, m.
      repeat split; try assumption; try discriminate;
        try (simpl length; lia).
      constructor; [exact Hg|constructor].
Qed.

(** A round that starts with a group saves it and goes on after it. *)
Lemma parseIPv6_loop_group (fuel : nat) (g rest : string) (ip : IP)
    (i ellipsis : Z) :
  group g -> no_digit_first digit16 rest -> index_is rest 0 "." = false ->
  i < 16 ->
  exists ip',
    parseIPv6_loop (S fuel) (mkV6 (g ++ rest) ip i ellipsis) =
    group_round fuel rest ip' (i + 2) ellipsis.
Proof.
  intros (n & Hn & Hle) Hrest Hdot Hi.
  rewrite parseIPv6_loop_S.
  replace (i <? 16) with true by (symmetry; apply Z.ltb_lt; exact Hi).
  rewrite (xtoi_numeral g rest n Hn) by (unfold big; lia || exact Hrest).
  replace (0xFFFF <? n) with false by (symmetry; apply Z.ltb_ge; exact Hle).
  rewrite index_is_app, Hdot, andb_false_r, slice_from_app.
  eexists. reflexivity.
Qed.

(** A round that starts with a dotted quad ends the loop. *)
Lemma parseIPv6_loop_quad (fuel : nat) (q : string) (ip : IP)
    (i ellipsis : Z) :
  dotted_quad q -> i + 4 <= 16 -> 0 <= ellipsis \/ i = 12 ->
  exists ip',
    parseIPv6_loop (S fuel) (mkV6 q ip i ellipsis) =
    Some (mkV6 "" ip' (i + 4) ellipsis).
Proof.
  intros Hq Hi He.
  destruct (proj2 (parseIPv4_accepts q) Hq) as [ip4 Hip4].
  destruct Hq as (a & b & c & d & Ha & _ & _ & _ & ->).
  destruct (octet_group _ Ha) as (n & Hn & Hle).
  rewrite parseIPv6_loop_S.
  replace (i <? 16) with true by (symmetry; apply Z.ltb_lt; lia).
  rewrite (xtoi_numeral a _ n Hn) by (unfold big; lia || reflexivity).
  replace (0xFFFF <? n) with false by (symmetry; apply Z.ltb_ge; exact Hle).
  rewrite index_is_app, len_app.
  change ("." ++ b ++ "." ++ c ++ "." ++ d)%string
    with (String "." (b ++ "." ++ c ++ "." ++ d)).
  rewrite len_String, index_is_0.
  pose proof (len_nonneg (b ++ "." ++ c ++ "." ++ d)) as Hlen.
  replace (len a <? len a + (len (b ++ "." ++ c ++ "." ++ d) + 1))
    with true by (symmetry; apply Z.ltb_lt; lia).
  simpl negb. simpl orb. simpl andb. cbv iota.
  unfold quad_round.
  replace ((ellipsis <? 0) && negb (i =? 12)) with false.
  2:{ symmetry. apply andb_false_iff. destruct He as [He|He].
      - left. apply Z.ltb_ge. exact He.
      - right. subst i. reflexivity. }
  replace (16 <? i + 4) with false by (symmetry; apply Z.ltb_ge; exact Hi).
  change (String "." (b ++ "." ++ c ++ "." ++ d))
    with ("." ++ b ++ "." ++ c ++ "." ++ d)%string.
  rewrite Hip4. eexists. reflexivity.
Qed.

(** The loop reads a list of fields to the end of the input. *)
Lemma parseIPv6_loop_fields (r : list string) (m : Z) :
  fields r m -> r <> [] ->
  forall (fuel : nat) (k : Z) (ip : IP) (ellipsis : Z),
    0 <= k -> k + m <= 8 -> m <= Z.of_nat fuel ->
    0 <= ellipsis \/ k + m = 8 ->
    exists ip',
      parseIPv6_loop fuel (mkV6 (join r) ip (2 * k) ellipsis) =
      Some (mkV6 "" ip' (2 * (k + m)) ellipsis).
Proof.
  induction 1 as [|q Hq|g l n Hg Hl IH]; intros Hne fuel k ip ellipsis
    Hk Hkm Hfuel He.
  - contradiction.
  - destruct fuel as [|fuel]; [simpl in Hfuel; lia|].
    replace (2 * (k + 2)) with (2 * k + 4) by lia.
    apply parseIPv6_loop_quad; [exact Hq | lia | lia].
  - pose proof (fields_nonneg _ _ Hl) as Hn.
    destruct fuel as [|fuel]; [simpl in Hfuel; lia|].
    destruct l as [|f l].
    + apply fields_nil_inv in Hl. subst n. simpl join.
      destruct (parseIPv6_loop_group fuel g "" ip (2 * k) ellipsis)
        as [ip' E]; [exact Hg | exact I | reflexivity | lia |].
      rewrite append_nil_r in E. rewrite E, group_round_end.
      exists ip'. f_equal. f_equal. lia.
    + assert (Hfl : f :: l <> []) by discriminate.
      pose proof (fields_starts_hex _ _ Hl Hfl) as Hhex.
      rewrite join_cons by exact Hfl.
      destruct (parseIPv6_loop_group fuel g (":" ++ join (f :: l)) ip
                  (2 * k) ellipsis)
        as [ip' E]; [exact Hg | reflexivity | reflexivity | lia |].
      rewrite E, group_round_colon;
        [|apply starts_hex_nonempty, Hhex|apply starts_hex_no_colon, Hhex].
      replace (2 * k + 2) with (2 * (k + 1)) by lia.
      replace (2 * (k + (n + 1))) with (2 * (k + 1 + n)) by lia.
      apply IH; [exact Hfl | lia | lia | lia | lia].
Qed.

(** The loop reads a list of groups up to the ellipsis after it, notes
    where the ellipsis is, and stops there at the end of the input or goes
    on after it. *)
Lemma parseIPv6_loop_groups (l : list string) :
  Forall group l -> l <> [] ->
  forall (rest : string) (fuel : nat) (k : Z) (ip : IP) (ellipsis : Z),
    0 <= k -> k + Z.of_nat (length l) <= 8 -> ellipsis < 0 ->
    exists ip',
      parseIPv6_loop (length l + fuel)
        (mkV6 (join l ++ "::" ++ rest) ip (2 * k) ellipsis) =
      let i := 2 * (k + Z.of_nat (length l)) in
      if len rest =? 0 then Some (mkV6 rest ip' i i)
      else parseIPv6_loop fuel (mkV6 rest ip' i i).
Proof.
  induction 1 as [|g l Hg Hl IH]; intros Hne rest fuel k ip ellipsis
    Hk Hkl He.
  - contradiction.
  - destruct l as [|f l].
    + simpl join. simpl length in *. simpl plus.
      destruct (parseIPv6_loop_group fuel g ("::" ++ rest) ip (2 * k) ellipsis)
        as [ip' E]; [exact Hg | reflexivity | reflexivity | lia |].
      rewrite E, group_round_ellipsis by exact He.
      exists ip'. cbv zeta.
      replace (2 * (k + Z.of_nat 1)) with (2 * k + 2) by lia. reflexivity.
    + assert (Hfl : f :: l <> []) by discriminate.
      pose proof (fields_starts_hex _ _ (groups_fields _ Hl) Hfl) as Hhex.
      assert (Hlen : Z.of_nat (length (g :: f :: l)) =
                     Z.of_nat (length (f :: l)) + 1)
        by (simpl length; lia).
      rewrite Hlen in Hkl. rewrite Hlen.
      rewrite join_cons by exact Hfl. rewrite !append_assoc.
      change (length (g :: f :: l) + fuel)%nat
        with (S (length (f :: l) + fuel)).
      destruct (parseIPv6_loop_group (length (f :: l) + fuel) g
                  (":" ++ join (f :: l) ++ "::" ++ rest) ip (2 * k) ellipsis)
        as [ip' E]; [exact Hg | reflexivity | reflexivity | lia |].
      rewrite E, group_round_colon;
        [|apply starts_hex_nonempty, starts_hex_app, Hhex
         |apply starts_hex_no_colon, starts_hex_app, Hhex].
      replace (2 * k + 2) with (2 * (k + 1)) by lia.
      replace (k + (Z.of_nat (length (f :: l)) + 1))
        with (k + 1 + Z.of_nat (length (f :: l))) by lia.
      apply IH; [exact Hfl | lia | lia | exact He].
Qed.

(** *** [parseIPv6] *)

Lemma parseIPv6_unfold (s : string) :
  parseIPv6 s =
  let ip := repeat 0 16%nat in
  if leading_ellipsis s then
    if len (slice_from s 2) =? 0 then Some ip
    else
      match parseIPv6_loop 8 (mkV6 (slice_from s 2) ip (2 * 0) 0) with
      | None => None
      | Some st => parseIPv6_finish st
      end
  else
    match parseIPv6_loop 8 (mkV6 s ip (2 * 0) (-1)) with
    | None => None
    | Some st => parseIPv6_finish st
    end.
Proof.
  unfold parseIPv6, leading_ellipsis.
  destruct ((2 <=? len s) && index_is s 0 ":" && index_is s 1 ":");
    reflexivity.
Qed.

Lemma leading_ellipsis_intro (s : string) :
  leading_ellipsis ("::" ++ s) = true.
Proof.
  unfold leading_ellipsis.
  change ("::" ++ s)%string with (String ":" (String ":" s)).
  rewrite !len_String. pose proof (len_nonneg s).
  replace (2 <=? len s + 1 + 1) with true by (symmetry; apply Z.leb_le; lia).
  reflexivity.
Qed.

Lemma leading_ellipsis_inv (s : string) :
  leading_ellipsis s = true -> exists s', s = ("::" ++ s')%string.
Proof.
  unfold leading_ellipsis. intros H.
  apply andb_true_iff in H. destruct H as [H H1].
  apply andb_true_iff in H. destruct H as [_ H0].
  apply index_is_0_inv in H0. destruct H0 as [s1 ->].
  change (index_is (String ":" s1) 1 ":") with (index_is s1 0 ":") in H1.
  apply index_is_0_inv in H1. destruct H1 as [s2 ->].
  exists s2. reflexivity.
Qed.

Lemma leading_ellipsis_hex (s : string) :
  starts_hex s -> leading_ellipsis s = false.
Proof.
  intros H. unfold leading_ellipsis.
  rewrite (starts_hex_no_colon _ H), andb_false_r. reflexivity.
Qed.

Lemma parseIPv6_finish_some (ip : IP) (i ellipsis : Z) :
  (i < 16 /\ 0 <= ellipsis) \/ (16 <= i /\ ellipsis < 0) ->
  exists ip', parseIPv6_finish (mkV6 "" ip i ellipsis) = Some ip'.
Proof.
  intros H. unfold parseIPv6_finish. simpl negb. cbv iota.
  change IPv6len with 16.
  destruct H as [[Hi He]|[Hi He]].
  - replace (i <? 16) with true by (symmetry; apply Z.ltb_lt; exact Hi).
    replace (ellipsis <? 0) with false by (symmetry; apply Z.ltb_ge; exact He).
    eexists. reflexivity.
  - replace (i <? 16) with false by (symmetry; apply Z.ltb_ge; exact Hi).
    replace (0 <=? ellipsis) with false by (symmetry; apply Z.leb_gt; exact He).
    eexists. reflexivity.
Qed.

Lemma parseIPv6_finish_inv (st : v6state) (ip : IP) :
  parseIPv6_finish st = Some ip ->
  v6_s st = "" /\
  ((v6_i st < 16 /\ 0 <= v6_ellipsis st) \/
   (16 <= v6_i st /\ v6_ellipsis st < 0)).
Proof.
  destruct st as [s ip0 i ellipsis]. unfold parseIPv6_finish.
  cbn [v6_s v6_i v6_ellipsis]. change IPv6len with 16.
  destruct (len s =? 0) eqn:Es; [|discriminate]. simpl negb. cbv iota.
  apply Z.eqb_eq, len_0 in Es.
  destruct (i <? 16) eqn:Ei.
  - destruct (ellipsis <? 0) eqn:Ee; [discriminate|]. intros _.
    apply Z.ltb_lt in Ei. apply Z.ltb_ge in Ee.
    split; [exact Es|]. left. split; assumption.
  - destruct (0 <=? ellipsis) eqn:Ee; [discriminate|]. intros _.
    apply Z.ltb_ge in Ei. apply Z.leb_gt in Ee.
    split; [exact Es|]. right. split; assumption.
Qed.

Lemma parseIPv6_complete (s : string) :
  ipv6_text s -> exists ip, parseIPv6 s = Some ip.
Proof.
  intros [l Hl ->|l r n Hl Hr Hln ->]; rewrite parseIPv6_unfold; cbv zeta.
  - assert (Hne : l <> []).
    { intros ->. apply fields_nil_inv in Hl. discriminate Hl. }
    rewrite (leading_ellipsis_hex _ (fields_starts_hex _ _ Hl Hne)).
    destruct (parseIPv6_loop_fields l 8 Hl Hne 8 0 (repeat 0 16%nat) (-1))
      as [ip' E]; try lia.
    rewrite E. apply parseIPv6_finish_some. right. lia.
  - pose proof (fields_nonneg _ _ Hr) as Hn.
    destruct l as [|g l].
    + change (join [] ++ "::" ++ join r)%string with ("::" ++ join r)%string.
      rewrite leading_ellipsis_intro.
      change (slice_from ("::" ++ join r) 2) with (join r).
      destruct r as [|f r]; [simpl; eexists; reflexivity|].
      assert (Hne : f :: r <> []) by discriminate.
      pose proof (fields_starts_hex _ _ Hr Hne) as Hhex.
      rewrite (len_nonempty_neq _ (starts_hex_nonempty _ Hhex)).
      simpl length in Hln.
      destruct (parseIPv6_loop_fields _ n Hr Hne 8 0 (repeat 0 16%nat) 0)
        as [ip' E]; try lia.
      rewrite E. apply parseIPv6_finish_some. left. lia.
    + assert (Hne : g :: l <> []) by discriminate.
      pose proof (fields_starts_hex _ _ (groups_fields _ Hl) Hne) as Hhex.
      rewrite (leading_ellipsis_hex _ (starts_hex_app _ _ Hhex)).
      assert (Hfuel : exists fuel, (length (g :: l) + fuel)%nat = 8%nat /\
                                   n <= Z.of_nat fuel).
      { exists (8 - length (g :: l))%nat. lia. }
      destruct Hfuel as (fuel & Efuel & Hfuel).
      set (ip0 := repeat 0 16%nat). rewrite <- Efuel.
      destruct (parseIPv6_loop_groups _ Hl Hne (join r) fuel 0 ip0 (-1))
        as [ip' E]; try lia.
      rewrite E. cbv zeta. clear E.
      destruct r as [|f r].
      * change (join []) with "". change (len "" =? 0) with true. cbv iota.
        apply fields_nil_inv in Hr. subst n.
        apply parseIPv6_finish_some. left. lia.
      * assert (Hner : f :: r <> []) by discriminate.
        pose proof (fields_starts_hex _ _ Hr Hner) as Hhexr.
        rewrite (len_nonempty_neq _ (starts_hex_nonempty _ Hhexr)).
        destruct (parseIPv6_loop_fields _ n Hr Hner fuel
                    (0 + Z.of_nat (length (g :: l))) ip'
                    (2 * (0 + Z.of_nat (length (g :: l)))))
          as [ip'' E]; try lia.
        rewrite E. apply parseIPv6_finish_some. left. lia.
Qed.

Lemma parseIPv6_sound (s : string) (ip : IP) :
  parseIPv6 s = Some ip -> ipv6_text s.
Proof.
  rewrite parseIPv6_unfold. cbv zeta.
  destruct (leading_ellipsis s) eqn:El.
  - apply leading_ellipsis_inv in El. destruct El as [s1 ->].
    change (slice_from ("::" ++ s1) 2) with s1.
    destruct (len s1 =? 0) eqn:E0.
    + intros _. apply Z.eqb_eq, len_0 in E0. subst s1.
      apply (ipv6_compressed _ [] [] 0); [constructor|constructor|simpl; lia|].
      reflexivity.
    + destruct (parseIPv6_loop 8 _) as [st'|] eqn:E; [|discriminate].
      intros H. apply parseIPv6_finish_inv in H. destruct H as [Hend Hfin].
      apply parseIPv6_loop_sound in E; [|lia|exact Hend|].
      2:{ intros ->. discriminate E0. }
      destruct E as [Hle [(r & m & Hr & Hne & -> & Hi & He)
                         |(l & r & m & _ & _ & _ & _ & _ & He & _)]]; [|lia].
      apply (ipv6_compressed _ [] r m); [constructor|exact Hr| |reflexivity].
      simpl length. lia.
  - destruct (parseIPv6_loop 8 _) as [st'|] eqn:E; [|discriminate].
    intros H. apply parseIPv6_finish_inv in H. destruct H as [Hend Hfin].
    destruct s as [|c s]; [discriminate E|].
    apply parseIPv6_loop_sound in E; [|lia|exact Hend|discriminate].
    destruct E as [Hle [(r & m & Hr & Hne & E & Hi & He)
                       |(l & r & m & Hl & Hne & Hr & E & Hi & He & He')]].
    + apply (ipv6_full _ r); [|exact E].
      replace 8 with m by lia. exact Hr.
    + apply (ipv6_compressed _ l r m); [exact Hl|exact Hr| |exact E]. lia.
Qed.

(** [parseIPv6] accepts exactly the IPv6 addresses in text form. *)
Lemma parseIPv6_accepts (s : string) :
  (exists ip, parseIPv6 s = Some ip) <-> ipv6_text s.
Proof.
  split.
  - intros [ip H]. exact (parseIPv6_sound _ _ H).
  - apply parseIPv6_complete.
Qed.

(** *** The slash and the prefix length *)

Lemma occurs_app (c : ascii) (s t : string) :
  occurs c (s ++ t) = occurs c s || occurs c t.
Proof.
  induction s as [|a s IH]; simpl; [reflexivity|].
  rewrite IH, orb_assoc. reflexivity.
Qed.

Lemma occurs_one (c a : ascii) : a <> c -> occurs c (String a "") = false.
Proof.
  intros H. cbn [occurs]. rewrite orb_false_r. apply Ascii.eqb_neq, H.
Qed.

Lemma IndexByte_app (c : ascii) (s t : string) :
  occurs c s = false -> IndexByte (s ++ String c t) c = len s.
Proof.
  induction s as [|a s IH]; intros H.
  - simpl. rewrite Ascii.eqb_refl. reflexivity.
  - simpl in H. apply orb_false_iff in H. destruct H as [Ha Hs].
    change (String a s ++ String c t)%string with (String a (s ++ String c t)).
    cbn [IndexByte]. rewrite Ha, (IH Hs), len_String.
    pose proof (len_nonneg s).
    replace (len s <? 0) with false by (symmetry; apply Z.ltb_ge; lia).
    reflexivity.
Qed.

Lemma IndexByte_inv (c : ascii) (s : string) :
  (IndexByte s c <? 0) = false ->
  exists a t, s = (a ++ String c t)%string /\ occurs c a = false.
Proof.
  induction s as [|x s IH]; cbn [IndexByte].
  - discriminate.
  - destruct (Ascii.eqb x c) eqn:Ex.
    + intros _. apply Ascii.eqb_eq in Ex. subst x.
      exists "", s. split; reflexivity.
    + destruct (IndexByte s c <? 0) eqn:E; [discriminate|]. intros _.
      destruct (IH eq_refl) as (a & t & -> & Ha).
      exists (String x a), t. split; [reflexivity|].
      simpl. rewrite Ex, Ha. reflexivity.
Qed.

Lemma IndexByte_none (c : ascii) (s : string) :
  (IndexByte s c <? 0) = true -> occurs c s = false.
Proof.
  induction s as [|x s IH]; cbn [IndexByte]; [reflexivity|].
  destruct (Ascii.eqb x c) eqn:Ex; [discriminate|].
  destruct (IndexByte s c <? 0) eqn:E.
  - intros _. simpl. rewrite Ex, IH; reflexivity.
  - intros H. apply Z.ltb_lt in H. apply Z.ltb_ge in E. lia.
Qed.

Lemma horner_occurs (digit : ascii -> option Z) (base : Z) (c : ascii)
    (s : string) (acc n : Z) :
  digit c = None -> horner digit base acc s = Some n -> occurs c s = false.
Proof.
  intros Hc. revert acc. induction s as [|a s IH]; simpl; intros acc H.
  - reflexivity.
  - destruct (digit a) as [d|] eqn:Ea; [|discriminate H].
    rewrite (IH _ H), orb_false_r.
    destruct (Ascii.eqb a c) eqn:E; [|reflexivity].
    apply Ascii.eqb_eq in E. subst a. rewrite Hc in Ea. discriminate Ea.
Qed.

Lemma numeral_occurs (digit : ascii -> option Z) (base : Z) (c : ascii)
    (s : string) (n : Z) :
  digit c = None -> numeral digit base s = Some n -> occurs c s = false.
Proof.
  intros Hc H. destruct s as [|a s]; [reflexivity|].
  exact (horner_occurs digit base c _ 0 n Hc H).
Qed.

Lemma octet_occurs (c : ascii) (o : string) :
  digit10 c = None -> octet o -> occurs c o = false.
Proof. intros Hc (n & H & _). exact (numeral_occurs _ _ _ _ _ Hc H). Qed.

Lemma group_occurs (c : ascii) (g : string) :
  digit16 c = None -> group g -> occurs c g = false.
Proof. intros Hc (n & H & _). exact (numeral_occurs _ _ _ _ _ Hc H). Qed.

(** A dotted quad is made of decimal digits and dots. *)
Lemma dotted_quad_occurs (x : ascii) (q : string) :
  digit10 x = None -> x <> "."%char -> dotted_quad q -> occurs x q = false.
Proof.
  intros Hx Hdot (a & b & c & d & Ha & Hb & Hc & Hd & ->).
  assert (E : occurs x "." = false) by (apply occurs_one; congruence).
  rewrite !occurs_app, E.
  rewrite (octet_occurs _ _ Hx Ha), (octet_occurs _ _ Hx Hb),
    (octet_occurs _ _ Hx Hc), (octet_occurs _ _ Hx Hd).
  reflexivity.
Qed.

(** The fields of an IPv6 address are made of hexadecimal digits, dots
    and colons. *)
Lemma fields_occurs (x : ascii) (l : list string) (n : Z) :
  digit16 x = None -> x <> "."%char -> x <> ":"%char ->
  fields l n -> occurs x (join l) = false.
Proof.
  intros Hx Hdot Hcolon. induction 1 as [|q Hq|g l n Hg Hl IH].
  - reflexivity.
  - simpl. apply dotted_quad_occurs; try assumption.
    destruct (digit10 x) as [d|] eqn:E; [|reflexivity].
    apply digit10_digit16 in E. congruence.
  - destruct l as [|f l]; [simpl; apply group_occurs; assumption|].
    rewrite join_cons by discriminate. rewrite !occurs_app, IH.
    rewrite (group_occurs _ _ Hx Hg), occurs_one by congruence.
    reflexivity.
Qed.

Lemma ipv6_text_occurs (x : ascii) (s : string) :
  digit16 x = None -> x <> "."%char -> x <> ":"%char ->
  ipv6_text s -> occurs x s = false.
Proof.
  intros Hx Hdot Hcolon [l Hl ->|l r n Hl Hr _ ->].
  - exact (fields_occurs _ _ _ Hx Hdot Hcolon Hl).
  - rewrite !occurs_app.
    rewrite (fields_occurs _ _ _ Hx Hdot Hcolon (groups_fields _ Hl)).
    rewrite (fields_occurs _ _ _ Hx Hdot Hcolon Hr).
    change "::" with (":" ++ ":")%string.
    rewrite occurs_app, occurs_one by congruence.
    reflexivity.
Qed.

(** An IPv6 address in text form has a colon, a dotted quad has none. *)
Lemma ipv6_text_colon (s : string) : ipv6_text s -> occurs ":" s = true.
Proof.
  intros [l Hl ->|l r n _ _ _ ->].
  - inversion Hl as [E|q Hq E|g l' n' Hg Hl' E E']; subst.
    destruct l' as [|f l'].
    + apply fields_nil_inv in Hl'. lia.
    + rewrite join_cons by discriminate. rewrite !occurs_app. simpl.
      rewrite orb_true_r. reflexivity.
  - rewrite !occurs_app. simpl. rewrite orb_true_r. reflexivity.
Qed.

Lemma ipv6_text_not_dotted_quad (s : string) :
  ipv6_text s -> dotted_quad s -> False.
Proof.
  intros H6 H4. apply ipv6_text_colon in H6.
  rewrite (dotted_quad_occurs ":" s) in H6;
    [discriminate H6 | reflexivity | discriminate | exact H4].
Qed.

Lemma bad_prefix_length_false (bits : Z) (mask : string) :
  bits < big ->
  bad_prefix_length bits mask = false <-> decimal_upto bits mask.
Proof.
  intros Hbits. unfold bad_prefix_length. split.
  - destruct (dtoi mask) as [[n i] ok] eqn:E. intros H.
    apply orb_false_iff in H. destruct H as [H Hn].
    apply orb_false_iff in H. destruct H as [H _].
    apply orb_false_iff in H. destruct H as [Hok Hi].
    apply negb_false_iff in Hok, Hi. subst ok.
    apply Z.eqb_eq in Hi. apply Z.ltb_ge in Hn.
    apply dtoi_inv in E. destruct E as (d & rest & -> & Hd & -> & _).
    rewrite len_app in Hi.
    assert (Hrest : rest = "") by (apply len_0; lia).
    subst rest. rewrite append_nil_r. exists n. split; assumption.
  - intros (n & Hn & Hle).
    pose proof (numeral_nonneg digit10 10
      (fun c d H => proj1 (digit10_range c d H)) ltac:(lia) _ _ Hn) as H0.
    rewrite <- (append_nil_r mask) at 1.
    rewrite (dtoi_numeral mask "" n Hn) by (lia || exact I).
    rewrite Z.eqb_refl.
    replace (n <? 0) with false by (symmetry; apply Z.ltb_ge; exact H0).
    replace (bits <? n) with false by (symmetry; apply Z.ltb_ge; exact Hle).
    reflexivity.
Qed.

(** *** [ParseCIDR] *)

Lemma ParseCIDR_unfold (addr mask : string) :
  occurs "/" addr = false ->
  ParseCIDR (addr ++ "/" ++ mask) =
  let s := (addr ++ "/" ++ mask)%string in
  let failure := ([], None, Some (ParseError "CIDR address" s)) in
  match parseIPv4 addr with
  | Some ip =>
      if bad_prefix_length 32 mask then failure
      else
        (ip, Some {| IPNet_IP := Mask ip (CIDRMask (fst (fst (dtoi mask))) 32);
                     IPNet_Mask := CIDRMask (fst (fst (dtoi mask))) 32 |}, None)
  | None =>
      match parseIPv6 addr with
      | Some ip =>
          if bad_prefix_length 128 mask then failure
          else
            (ip, Some {| IPNet_IP :=
                           Mask ip (CIDRMask (fst (fst (dtoi mask))) 128);
                         IPNet_Mask := CIDRMask (fst (fst (dtoi mask))) 128 |},
             None)
      | None => failure
      end
  end.
Proof.
  intros Hno. unfold ParseCIDR.
  change ("/" ++ mask)%string with (String "/" mask).
  rewrite (IndexByte_app _ _ _ Hno).
  pose proof (len_nonneg addr) as Hlen.
  replace (len addr <? 0) with false by (symmetry; apply Z.ltb_ge; lia).
  rewrite slice_to_app.
  replace (slice_from (addr ++ String "/" mask) (len addr + 1)) with mask.
  2:{ unfold slice_from. replace (Z.to_nat (len addr + 1))
        with (String.length addr + 1)%nat by (unfold len; lia).
      clear. induction addr as [|a s IH]; [reflexivity|exact IH]. }
  unfold bad_prefix_length. cbv zeta.
  destruct (parseIPv4 addr) as [ip4|]; [|destruct (parseIPv6 addr) as [ip6|]];
    destruct (dtoi mask) as [[n i] ok]; reflexivity.
Qed.

(** [ParseCIDR] accepts the address/prefix-length pairs and fails on
    every other string with a [ParseError] that carries the string. *)
Lemma ParseCIDR_cases (s : string) :
  (address_prefix_pair s /\
   exists ip net, ParseCIDR s = (ip, Some net, None)) \/
  (~ address_prefix_pair s /\
   ParseCIDR s = ([], None, Some (ParseError "CIDR address" s))).
Proof.
  destruct (IndexByte s "/" <? 0) eqn:Ei.
  { right. split.
    - apply IndexByte_none in Ei. intros [addr plen _ _ ->|addr plen _ _ ->];
        rewrite !occurs_app in Ei; simpl in Ei; rewrite orb_true_r in Ei;
        discriminate Ei.
    - unfold ParseCIDR. rewrite Ei. reflexivity. }
  apply IndexByte_inv in Ei. destruct Ei as (addr & mask & -> & Hno).
  change (String "/" mask) with ("/" ++ mask)%string.
  assert (Hdec : forall addr' plen',
            occurs "/" addr' = false ->
            (addr ++ "/" ++ mask = addr' ++ "/" ++ plen')%string ->
            addr' = addr /\ plen' = mask).
  { intros addr' plen' Hno' E.
    assert (E1 : slice_to (addr ++ "/" ++ mask) (len addr) = addr)
      by apply slice_to_app.
    assert (E2 : len addr = len addr').
    { rewrite <- (IndexByte_app "/" addr mask Hno).
      rewrite <- (IndexByte_app "/" addr' plen' Hno').
      change (String "/" mask) with ("/" ++ mask)%string.
      change (String "/" plen') with ("/" ++ plen')%string.
      rewrite E. reflexivity. }
    assert (E3 : addr' = addr).
    { rewrite <- E1, E, E2. symmetry. apply slice_to_app. }
    subst addr'. split; [reflexivity|].
    clear - E. induction addr as [|a s IH]; simpl in E.
    - injection E as E. symmetry. exact E.
    - injection E as E. apply IH, E. }
  assert (Hpair : address_prefix_pair (addr ++ "/" ++ mask) ->
            (dotted_quad addr /\ decimal_upto 32 mask) \/
            (ipv6_text addr /\ decimal_upto 128 mask)).
  { intros [addr' plen' H4 Hp E|addr' plen' H6 Hp E].
    - destruct (Hdec addr' plen') as [-> ->];
        [|exact E|left; split; assumption].
      apply dotted_quad_occurs; [reflexivity|discriminate|exact H4].
    - destruct (Hdec addr' plen') as [-> ->];
        [|exact E|right; split; assumption].
      apply ipv6_text_occurs;
        [reflexivity|discriminate|discriminate|exact H6]. }
  rewrite (ParseCIDR_unfold _ _ Hno). cbv zeta.
  destruct (parseIPv4 addr) as [ip4|] eqn:E4.
  - assert (H4 : dotted_quad addr)
      by (apply parseIPv4_accepts; exists ip4; exact E4).
    destruct (bad_prefix_length 32 mask) eqn:Em.
    + right. split; [|reflexivity]. intros H.
      destruct (Hpair H) as [[_ Hp]|[H6 _]].
      * apply bad_prefix_length_false in Hp; [|unfold big; lia].
        rewrite Hp in Em. discriminate Em.
      * exact (ipv6_text_not_dotted_quad _ H6 H4).
    + left. split; [|eexists; eexists; reflexivity].
      apply bad_prefix_length_false in Em; [|unfold big; lia].
      exact (pair_v4 _ addr mask H4 Em eq_refl).
  - assert (H4 : ~ dotted_quad addr).
    { intros H. apply parseIPv4_accepts in H. destruct H as [ip H].
      rewrite H in E4. discriminate E4. }
    destruct (parseIPv6 addr) as [ip6|] eqn:E6.
    + assert (H6 : ipv6_text addr)
        by (apply parseIPv6_accepts; exists ip6; exact E6).
      destruct (bad_prefix_length 128 mask) eqn:Em.
      * right. split; [|reflexivity]. intros H.
        destruct (Hpair H) as [[H4' _]|[_ Hp]]; [exact (H4 H4')|].
        apply bad_prefix_length_false in Hp; [|unfold big; lia].
        rewrite Hp in Em. discriminate Em.
      * left. split; [|eexists; eexists; reflexivity].
        apply bad_prefix_length_false in Em; [|unfold big; lia].
        exact (pair_v6 _ addr mask H6 Em eq_refl).
    + right. split; [|reflexivity]. intros H.
      destruct (Hpair H) as [[H4' _]|[H6 _]]; [exact (H4 H4')|].
      apply parseIPv6_accepts in H6. destruct H6 as [ip H6].
      rewrite H6 in E6. discriminate E6.
Qed.

(** *** The fuel of the loop of [parseIPv6] *)

(** The loop's rounds are counted only to make the recursion structural:
    at position [2 * k] of the address, [8 - k] rounds are all that can
    run, and any larger count gives the same result. The eight rounds
    of [parseIPv6] are therefore no restriction of the Go loop. *)
Lemma parseIPv6_loop_fuel (fuel1 fuel2 : nat) (s : string) (ip : IP)
    (k ellipsis : Z) :
  8 - k <= Z.of_nat fuel1 -> 8 - k <= Z.of_nat fuel2 ->
  parseIPv6_loop fuel1 (mkV6 s ip (2 * k) ellipsis) =
  parseIPv6_loop fuel2 (mkV6 s ip (2 * k) ellipsis).
Proof.
  revert fuel2 s ip k ellipsis.
  induction fuel1 as [|fuel1 IH]; intros [|fuel2] s ip k ellipsis H1 H2.
  - reflexivity.
  - rewrite parseIPv6_loop_S.
    replace (2 * k <? 16) with false by (symmetry; apply Z.ltb_ge; lia).
    reflexivity.
  - rewrite parseIPv6_loop_S.
    replace (2 * k <? 16) with false by (symmetry; apply Z.ltb_ge; lia).
    reflexivity.
  - rewrite !parseIPv6_loop_S.
    destruct (2 * k <? 16); [|reflexivity]. simpl negb. cbv iota.
    destruct (xtoi s) as [[n c] ok].
    destruct (negb ok || (0xFFFF <? n)); [reflexivity|].
    destruct ((c <? len s) && index_is s c "."); [reflexivity|].
    replace (2 * k + 2) with (2 * (k + 1)) by lia.
    unfold group_round. cbv zeta.
    rewrite !(IH fuel2) by lia. reflexivity.
Qed.

End ParserFacts.

(** ** The family of the parsed prefix *)

Module FamilyFacts.

Import forkednet Syntax Shapes ParserFacts.

Local Open Scope Z_scope.

Lemma set_length (p : list byte) (i : Z) (v : byte) :
  length (set p i v) = length p.
Proof.
  unfold set. destruct (i <? 0); [reflexivity|].
  generalize (Z.to_nat i) as k. clear i.
  induction p as [|x p IH]; intros [|k]; simpl; try reflexivity.
  now rewrite IH.
Qed.

Lemma for_down_length (hi lo : Z) (body : Z -> IP -> IP) (ip : IP) :
  (forall j q, length (body j q) = length q) ->
  length (for_down hi lo body ip) = length ip.
Proof.
  intros Hbody. unfold for_down.
  generalize (seq 0 (Z.to_nat (hi - lo + 1))) as ks. intros ks. revert ip.
  induction ks as [|k ks IH]; intros ip; simpl; [reflexivity|].
  rewrite IH, Hbody. reflexivity.
Qed.

Lemma parseIPv6_loop_length (fuel : nat) (st st' : v6state) :
  parseIPv6_loop fuel st = Some st' ->
  length (v6_ip st') = length (v6_ip st).
Proof.
  revert st. induction fuel as [|fuel IH]; intros [s ip i ellipsis] H.
  - simpl in H. injection H as <-. reflexivity.
  - rewrite parseIPv6_loop_S in H.
    destruct (negb (i <? 16)); [injection H as <-; reflexivity|].
    destruct (xtoi s) as [[n c] ok].
    destruct (negb ok || (0xFFFF <? n)); [discriminate H|].
    destruct ((c <? len s) && index_is s c ".").
    + unfold quad_round in H.
      destruct ((ellipsis <? 0) && negb (i =? 12)); [discriminate H|].
      destruct (16 <? i + 4); [discriminate H|].
      destruct (parseIPv4 s) as [ip4|]; [|discriminate H].
      injection H as <-. cbn [v6_ip]. rewrite !set_length. reflexivity.
    + unfold group_round in H. cbv zeta in H.
      repeat match type of H with
      | (if ?b then _ else _) = Some _ => destruct b
      end;
      try discriminate H;
      try (injection H as <-; cbn [v6_ip]; rewrite !set_length; reflexivity);
      apply IH in H; cbn [v6_ip] in H; rewrite H, !set_length; reflexivity.
Qed.

Lemma parseIPv6_length (s : string) (ip : IP) :
  parseIPv6 s = Some ip -> length ip = 16%nat.
Proof.
  rewrite parseIPv6_unfold. cbv zeta.
  assert (Hfin : forall st, parseIPv6_finish st = Some ip ->
                            length ip = length (v6_ip st)).
  { intros [s' ip' i ellipsis]. unfold parseIPv6_finish. cbn [v6_ip].
    destruct (negb (len s' =? 0)); [discriminate|].
    destruct (i <? IPv6len).
    - destruct (ellipsis <? 0); [discriminate|]. intros H. injection H as <-.
      rewrite !for_down_length; [reflexivity| |];
        intros j q; apply set_length.
    - destruct (0 <=? ellipsis); [discriminate|]. intros H.
      injection H as <-. reflexivity. }
  destruct (leading_ellipsis s).
  - destruct (len (slice_from s 2) =? 0).
    + intros H. injection H as <-. reflexivity.
    + destruct (parseIPv6_loop 8 _) as [st'|] eqn:E; [|discriminate].
      intros H. apply Hfin in H. apply parseIPv6_loop_length in E.
      rewrite H, E. reflexivity.
  - destruct (parseIPv6_loop 8 _) as [st'|] eqn:E; [|discriminate].
    intros H. apply Hfin in H. apply parseIPv6_loop_length in E.
    rewrite H, E. reflexivity.
Qed.

Lemma parseIPv4_loop_shape (fuel : nat) (i : Z) (s : string) (p : list byte)
    (ip : IP) :
  parseIPv4_loop fuel i s p = Some ip -> exists a b c d, ip = IPv4 a b c d.
Proof.
  revert i s p. induction fuel as [|fuel IH]; intros i s p H.
  - simpl in H. destruct (negb (len s =? 0)); [discriminate H|].
    injection H as <-. eexists; eexists; eexists; eexists. reflexivity.
  - cbn [parseIPv4_loop] in H.
    destruct (len s =? 0); [discriminate H|].
    destruct (negb (if 0 <? i then index_is s 0 "." else true));
      [discriminate H|].
    destruct (dtoi (if 0 <? i then slice_from s 1 else s)) as [[n c] ok].
    destruct (negb ok || (0xFF <? n)); [discriminate H|].
    exact (IH _ _ _ H).
Qed.

Lemma CIDRMask_loop_length (l : nat) (n : Z) :
  length (CIDRMask_loop l n) = l.
Proof.
  revert n. induction l as [|l IH]; intros n; simpl; [reflexivity|].
  destruct (8 <=? n); simpl; now rewrite IH.
Qed.

Lemma CIDRMask_length (n bits : Z) :
  bits = 32 \/ bits = 128 -> 0 <= n <= bits ->
  length (CIDRMask n bits) = Z.to_nat (bits / 8).
Proof.
  intros Hbits Hn. unfold CIDRMask.
  replace (negb (bits =? 8 * IPv4len) && negb (bits =? 8 * IPv6len))
    with false by (destruct Hbits; subst bits; reflexivity).
  replace ((n <? 0) || (bits <? n)) with false.
  2:{ symmetry. apply orb_false_iff. split; apply Z.ltb_ge; lia. }
  apply CIDRMask_loop_length.
Qed.

Lemma map_combine_length (ip mask : list byte) :
  length ip = length mask ->
  length (map (fun '(a, b) => Z.land a b) (combine ip mask)) = length ip.
Proof.
  intros H. rewrite length_map, length_combine, <- H. apply Nat.min_id.
Qed.

(** Masking the 16-byte form of an IPv4 address with a 4-byte mask gives
    a 4-byte address. *)
Lemma Mask_IPv4_length (a b c d : byte) (m : IPMask) :
  length m = 4%nat -> length (Mask (IPv4 a b c d) m) = 4%nat.
Proof.
  intros Hm. destruct m as [|m0 [|m1 [|m2 [|m3 [|m4 m]]]]];
    try discriminate Hm. reflexivity.
Qed.

(** Masking a 16-byte address with a 16-byte mask gives a 16-byte
    address. *)
Lemma Mask_16_length (ip : IP) (m : IPMask) :
  length ip = 16%nat -> length m = 16%nat -> length (Mask ip m) = 16%nat.
Proof.
  intros Hip Hm. unfold Mask.
  replace (Z.of_nat (length ip) =? IPv4len) with false
    by (rewrite Hip; reflexivity).
  rewrite andb_false_r. cbn [andb]. cbv iota.
  replace (Z.of_nat (length m) =? IPv4len) with false
    by (rewrite Hm; reflexivity).
  cbn [andb]. cbv iota.
  replace (length ip =? length m)%nat with true
    by (rewrite Hip, Hm; reflexivity).
  cbn [negb]. cbv iota. rewrite map_combine_length; congruence.
Qed.

Lemma IPFamilyOf_4 (ip : IP) :
  length ip = 4%nat -> netutils.IPFamilyOf ip = netutils.IPv4.
Proof.
  intros H. unfold netutils.IPFamilyOf, To4. rewrite H. reflexivity.
Qed.

Lemma IPFamilyOf_16 (ip : IP) :
  length ip = 16%nat ->
  netutils.IPFamilyOf ip = netutils.IPv4 \/
  netutils.IPFamilyOf ip = netutils.IPv6.
Proof.
  intros H. unfold netutils.IPFamilyOf, To4, To16. rewrite H.
  change (Z.of_nat 16 =? IPv4len) with false.
  change (Z.of_nat 16 =? IPv6len) with true. cbv iota. cbn [andb].
  destruct (forallb (Z.eqb 0) (firstn 10 ip) && (at_ ip 10 =? 255) &&
            (at_ ip 11 =? 255)); [left|right]; reflexivity.
Qed.

Lemma prefix_length_range (bits : Z) (mask : string) :
  bad_prefix_length bits mask = false ->
  0 <= fst (fst (dtoi mask)) <= bits.
Proof.
  unfold bad_prefix_length. destruct (dtoi mask) as [[n i] ok]. intros H.
  apply orb_false_iff in H. destruct H as [H Hn].
  apply orb_false_iff in H. destruct H as [_ H0].
  apply Z.ltb_ge in Hn, H0. simpl. lia.
Qed.

(** The prefix [ParseCIDR] returns is an IPv4 one when the address is a
    dotted quad, and an IPv4 or an IPv6 one otherwise: its family is
    never unknown. *)
Lemma ParseCIDR_family (s : string) (ip : IP) (net : IPNet) :
  ParseCIDR s = (ip, Some net, None) ->
  (exists addr plen,
     s = (addr ++ "/" ++ plen)%string /\ dotted_quad addr /\
     netutils.IPFamilyOfCIDR (Some net) = netutils.IPv4) \/
  (exists addr plen,
     s = (addr ++ "/" ++ plen)%string /\ ipv6_text addr /\
     (netutils.IPFamilyOfCIDR (Some net) = netutils.IPv4 \/
      netutils.IPFamilyOfCIDR (Some net) = netutils.IPv6)).
Proof.
  intros H.
  destruct (IndexByte s "/" <? 0) eqn:Ei.
  { unfold ParseCIDR in H. rewrite Ei in H. discriminate H. }
  apply IndexByte_inv in Ei. destruct Ei as (addr & mask & -> & Hno).
  change (String "/" mask) with ("/" ++ mask)%string in *.
  rewrite (ParseCIDR_unfold _ _ Hno) in H. cbv zeta in H.
  destruct (parseIPv4 addr) as [ip4|] eqn:E4.
  - destruct (bad_prefix_length 32 mask) eqn:Em; [discriminate H|].
    injection H as _ <-. left. exists addr, mask.
    split; [reflexivity|]. split.
    + apply parseIPv4_accepts. exists ip4. exact E4.
    + apply parseIPv4_loop_shape in E4. destruct E4 as (a & b & c & d & ->).
      apply prefix_length_range in Em.
      cbn [netutils.IPFamilyOfCIDR IPNet_IP].
      apply IPFamilyOf_4, Mask_IPv4_length.
      rewrite CIDRMask_length; [reflexivity | left; reflexivity | exact Em].
  - destruct (parseIPv6 addr) as [ip6|] eqn:E6; [|discriminate H].
    destruct (bad_prefix_length 128 mask) eqn:Em; [discriminate H|].
    injection H as _ <-. right. exists addr, mask.
    split; [reflexivity|]. split.
    + apply parseIPv6_accepts. exists ip6. exact E6.
    + apply prefix_length_range in Em.
      cbn [netutils.IPFamilyOfCIDR IPNet_IP].
      apply IPFamilyOf_16, Mask_16_length.
      * exact (parseIPv6_length _ _ E6).
      * rewrite CIDRMask_length; [reflexivity | right; reflexivity | exact Em].
Qed.

End FamilyFacts.

(** ** The CIDR constructor on the library's parser

    From here on the two imported functions are those of the model of
    the library, [netutils_go]. *)

Example ParseCIDRSloppy_host_bits :
  ParseCIDRSloppy (NetUtils := netutils_go) "10.0.0.1/8" =
  ([0; 0; 0; 0; 0; 0; 0; 0; 0; 0; 255; 255; 10; 0; 0; 1]%Z,
   Some {| IPNet_IP := [10; 0; 0; 0]%Z; IPNet_Mask := [255; 0; 0; 0]%Z |},
   None).
Proof. reflexivity. Qed.

Example ParseCIDRSloppy_leading_zeros :
  parsed_prefix (NU := netutils_go) "010.000.0.1/08" =
  parsed_prefix (NU := netutils_go) "10.0.0.0/8".
Proof. reflexivity. Qed.

Example ParseCIDRSloppy_v6 :
  parsed_prefix (NU := netutils_go) "fd00::/8" =
  Some {| IPNet_IP := [253; 0; 0; 0; 0; 0; 0; 0; 0; 0; 0; 0; 0; 0; 0; 0]%Z;
          IPNet_Mask := [255; 0; 0; 0; 0; 0; 0; 0; 0; 0; 0; 0; 0; 0; 0; 0]%Z |}.
Proof. reflexivity. Qed.

(** Two pairs of the grammar, derived by hand. *)
Example pair_10_8 : Syntax.address_prefix_pair "10.0.0.1/8".
Proof.
  apply (Syntax.pair_v4 _ "10.0.0.1" "8"); [| |reflexivity].
  - exists "10", "0", "0", "1".
    repeat split;
      [exists 10%Z | exists 0%Z | exists 0%Z | exists 1%Z];
      (split; [reflexivity|lia]).
  - exists 8%Z. split; [reflexivity|lia].
Qed.

Example pair_fd00_8 : Syntax.address_prefix_pair "fd00::/8".
Proof.
  apply (Syntax.pair_v6 _ "fd00::" "8"); [| |reflexivity].
  - apply (Syntax.ipv6_compressed _ ["fd00"] [] 0%Z).
    + constructor; [|constructor].
      exists 0xfd00%Z. split; [reflexivity|lia].
    + constructor.
    + simpl. lia.
    + reflexivity.
  - exists 8%Z. split; [reflexivity|lia].
Qed.

Example not_a_cidr_is_no_pair : ~ Syntax.address_prefix_pair "not-a-cidr".
Proof.
  destruct (ParserFacts.ParseCIDR_cases "not-a-cidr")
    as [[_ (ip & net & E)]|[H _]].
  - discriminate E.
  - exact H.
Qed.

(** On the library's parser the keyword "ip" stands for a prefix of
    family IPv4 and "ip6" for one of family IPv6: the family of an
    accepted prefix is never unknown. *)
Lemma NewDetectLocalByCIDR_family (cidr : string) (d : LocalTrafficDetector) :
  NewDetectLocalByCIDR (NU := netutils_go) cidr = (Some d, None) ->
  (netutils.IPFamilyOfCIDR (parsed_prefix (NU := netutils_go) cidr) =
   netutils.IPv4 /\
   hd "" (nft_local (tokens_of d)) = "ip" /\
   hd "" (nft_not_local (tokens_of d)) = "ip") \/
  (netutils.IPFamilyOfCIDR (parsed_prefix (NU := netutils_go) cidr) =
   netutils.IPv6 /\
   hd "" (nft_local (tokens_of d)) = "ip6" /\
   hd "" (nft_not_local (tokens_of d)) = "ip6").
Proof.
  intros H. pose proof (NewDetectLocalByCIDR_ok _ _ H) as Hd. subst d.
  destruct (ParserFacts.ParseCIDR_cases cidr) as [[_ (ip & net & E)]|[_ E]].
  2:{ unfold NewDetectLocalByCIDR in H. simpl in H.
      unfold netutils.ParseCIDRSloppy in H. rewrite E in H. discriminate H. }
  assert (Ep : parsed_prefix (NU := netutils_go) cidr = Some net).
  { unfold parsed_prefix. simpl. unfold netutils.ParseCIDRSloppy.
    rewrite E. reflexivity. }
  unfold tokens_of, returns, family_keyword. cbn [nft_local nft_not_local].
  rewrite Ep.
  assert (Hfam : netutils.IPFamilyOfCIDR (Some net) = netutils.IPv4 \/
                 netutils.IPFamilyOfCIDR (Some net) = netutils.IPv6).
  { destruct (FamilyFacts.ParseCIDR_family _ _ _ E)
      as [(_ & _ & _ & _ & F)|(_ & _ & _ & _ & F)]; [left; exact F|exact F]. }
  destruct Hfam as [F|F]; [left|right]; (split; [exact F|]);
    simpl; unfold netutils.IsIPv6CIDR; rewrite F; split; reflexivity.
Qed.

(** C2: on the parser of the library, [NewDetectLocalByCIDR] returns a
    detector and no error for every string that is an address/prefix-length
    pair (a dotted-decimal or colon-hexadecimal address, a slash, a decimal
    length of at most 32 or 128 bits), and returns no detector and a
    [ParseError] that carries the string for every other string; the
    string "not-a-cidr" is one of the others. *)
Theorem NewDetectLocalByCIDR_fails_iff_no_pair :
  (forall cidr : string,
     (Syntax.address_prefix_pair cidr /\
      exists d,
        NewDetectLocalByCIDR (NU := netutils_go) cidr = (Some d, None)) \/
     (~ Syntax.address_prefix_pair cidr /\
      NewDetectLocalByCIDR (NU := netutils_go) cidr =
      (None, Some (ParseError "CIDR address" cidr)))) /\
  NewDetectLocalByCIDR (NU := netutils_go) "not-a-cidr" =
  (None, Some (ParseError "CIDR address" "not-a-cidr")).
Proof.
  split; [|reflexivity].
  intros cidr.
  destruct (ParserFacts.ParseCIDR_cases cidr) as [[Hp (ip & net & E)]|[Hp E]].
  - left. split; [exact Hp|].
    destruct (NewDetectLocalByCIDR_cases cidr) as [(e & He & _)|[_ Hd]].
    + simpl in He. unfold netutils.ParseCIDRSloppy in He.
      rewrite E in He. discriminate He.
    + eexists. exact Hd.
  - right. split; [exact Hp|].
    destruct (NewDetectLocalByCIDR_cases cidr) as [(e & He & Hd)|[He _]].
    + simpl in He. unfold netutils.ParseCIDRSloppy in He.
      rewrite E in He. simpl in He. injection He as <-. exact Hd.
    + simpl in He. unfold netutils.ParseCIDRSloppy in He.
      rewrite E in He. discriminate He.
Qed.

(** C10: on the parser of the library, [NewDetectLocalByCIDR] accepts
    "10.0.0.1/8", an address with host bits set beyond the prefix length:
    the prefix parsed from it is the masked one, 10.0.0.0/8, the same as
    for "10.0.0.0/8", and yet the detector's four token sequences carry
    the input "10.0.0.1/8". For every accepted input each of the four
    token sequences ends with the input string itself. *)
Theorem NewDetectLocalByCIDR_keeps_input :
  (exists d,
     NewDetectLocalByCIDR (NU := netutils_go) "10.0.0.1/8" = (Some d, None) /\
     tokens_of d =
     {| legacy_local := ["-s"; "10.0.0.1/8"];
        legacy_not_local := ["!"; "-s"; "10.0.0.1/8"];
        nft_local := ["ip"; "saddr"; "10.0.0.1/8"];
        nft_not_local := ["ip"; "saddr"; "!="; "10.0.0.1/8"] |}) /\
  parsed_prefix (NU := netutils_go) "10.0.0.1/8" =
  Some {| IPNet_IP := [10; 0; 0; 0]%Z; IPNet_Mask := [255; 0; 0; 0]%Z |} /\
  parsed_prefix (NU := netutils_go) "10.0.0.1/8" =
  parsed_prefix (NU := netutils_go) "10.0.0.0/8" /\
  (forall cidr d,
     NewDetectLocalByCIDR (NU := netutils_go) cidr = (Some d, None) ->
     last (legacy_local (tokens_of d)) "" = cidr /\
     last (legacy_not_local (tokens_of d)) "" = cidr /\
     last (nft_local (tokens_of d)) "" = cidr /\
     last (nft_not_local (tokens_of d)) "" = cidr).
Proof.
  split; [|split; [|split]].
  - eexists. split; reflexivity.
  - reflexivity.
  - reflexivity.
  - intros cidr d H. apply NewDetectLocalByCIDR_ok in H. subst d.
    repeat split; reflexivity.
Qed.

(** ** The theorems at concrete inputs *)

Lemma NewDetectLocalByCIDR_tokens_witness :
  (exists d,
     NewDetectLocalByCIDR (NU := netutils_go) "10.0.0.0/8" = (Some d, None) /\
     tokens_of d =
     {| legacy_local := ["-s"; "10.0.0.0/8"];
        legacy_not_local := ["!"; "-s"; "10.0.0.0/8"];
        nft_local := ["ip"; "saddr"; "10.0.0.0/8"];
        nft_not_local := ["ip"; "saddr"; "!="; "10.0.0.0/8"] |}) /\
  (exists d,
     NewDetectLocalByCIDR (NU := netutils_go) "fd00::/8" = (Some d, None) /\
     tokens_of d =
     {| legacy_local := ["-s"; "fd00::/8"];
        legacy_not_local := ["!"; "-s"; "fd00::/8"];
        nft_local := ["ip6"; "saddr"; "fd00::/8"];
        nft_not_local := ["ip6"; "saddr"; "!="; "fd00::/8"] |}).
Proof.
  split; eexists; (split; [reflexivity|]).
  - exact (NewDetectLocalByCIDR_tokens "10.0.0.0/8" _ eq_refl).
  - exact (NewDetectLocalByCIDR_tokens "fd00::/8" _ eq_refl).
Defined.

Lemma not_local_negates_local_witness :
  (exists d,
     NewDetectLocalByCIDR (NU := netutils_go) "10.0.0.0/8" = (Some d, None) /\
     returns IfLocal d <> [] /\
     returns IfNotLocal d = ["!"; "-s"; "10.0.0.0/8"] /\
     returns IfNotLocalNFT d = ["ip"; "saddr"; "!="; "10.0.0.0/8"]) /\
  (exists d,
     NewDetectLocalByBridgeInterface "cbr0" = (Some d, None) /\
     returns IfLocal d <> [] /\
     returns IfNotLocal d = ["!"; "-i"; "cbr0"] /\
     returns IfNotLocalNFT d = ["iif"; "!="; "cbr0"]) /\
  (exists d,
     NewDetectLocalByInterfaceNamePrefix "veth" = (Some d, None) /\
     returns IfLocal d <> [] /\
     returns IfNotLocal d = ["!"; "-i"; "veth+"] /\
     returns IfNotLocalNFT d = ["iif"; "!="; "veth*"]).
Proof.
  split; [|split]; eexists; (split; [reflexivity|]).
  - match goal with
    | |- returns IfLocal ?d <> [] /\ _ =>
        assert (Hc : NewDetectLocalByCIDR (NU := netutils_go) "10.0.0.0/8" =
                     (Some d, None)) by reflexivity;
        destruct (not_local_negates_local (NU := netutils_go) d
                    (constructed_ByCIDR d "10.0.0.0/8" Hc))
          as (Hne & Hnot & _ & _ & Hnft)
    end.
    split; [exact Hne|]. split; [exact Hnot|exact Hnft].
  - match goal with
    | |- returns IfLocal ?d <> [] /\ _ =>
        assert (Hc : NewDetectLocalByBridgeInterface "cbr0" =
                     (Some d, None)) by reflexivity;
        destruct (not_local_negates_local (NU := netutils_go) d
                    (constructed_ByBridgeInterface d "cbr0" Hc))
          as (Hne & Hnot & _ & _ & Hnft)
    end.
    split; [exact Hne|]. split; [exact Hnot|exact Hnft].
  - match goal with
    | |- returns IfLocal ?d <> [] /\ _ =>
        assert (Hc : NewDetectLocalByInterfaceNamePrefix "veth" =
                     (Some d, None)) by reflexivity;
        destruct (not_local_negates_local (NU := netutils_go) d
                    (constructed_ByInterfaceNamePrefix d "veth" Hc))
          as (Hne & Hnot & _ & _ & Hnft)
    end.
    split; [exact Hne|]. split; [exact Hnot|exact Hnft].
Defined.

Lemma NewDetectLocalByBridgeInterface_tokens_witness :
  "cbr0" <> "" /\
  exists d,
    NewDetectLocalByBridgeInterface "cbr0" = (Some d, None) /\
    tokens_of d =
    {| legacy_local := ["-i"; "cbr0"];
       legacy_not_local := ["!"; "-i"; "cbr0"];
       nft_local := ["iif"; "cbr0"];
       nft_not_local := ["iif"; "!="; "cbr0"] |}.
Proof.
  assert (H : "cbr0" <> "") by discriminate.
  split; [exact H|].
  exact (NewDetectLocalByBridgeInterface_tokens "cbr0" H).
Defined.

Lemma NewDetectLocalByInterfaceNamePrefix_tokens_witness :
  "veth" <> "" /\
  exists d,
    NewDetectLocalByInterfaceNamePrefix "veth" = (Some d, None) /\
    tokens_of d =
    {| legacy_local := ["-i"; "veth+"];
       legacy_not_local := ["!"; "-i"; "veth+"];
       nft_local := ["iif"; "veth*"];
       nft_not_local := ["iif"; "!="; "veth*"] |}.
Proof.
  assert (H : "veth" <> "") by discriminate.
  split; [exact H|].
  exact (NewDetectLocalByInterfaceNamePrefix_tokens "veth" H).
Defined.

(** * Further properties of the constructors *)

(** ** Strings *)

Lemma append_nonempty (s t : string) : t <> "" -> (s ++ t)%string <> "".
Proof.
  intros Ht. destruct s as [|c s]; simpl; [exact Ht|discriminate].
Qed.

(** A string is determined by what it gives with one character appended. *)
Lemma append_char_inj (s t : string) (c : ascii) :
  (s ++ String c "")%string = (t ++ String c "")%string -> s = t.
Proof.
  revert t. induction s as [|a s IH]; intros [|b t] H; simpl in H.
  - reflexivity.
  - injection H as _ H. destruct t; discriminate H.
  - injection H as _ H. destruct s; discriminate H.
  - injection H as -> H. f_equal. apply IH, H.
Qed.

(** What is appended to a string can be read off the result. *)
Lemma append_inj_r (s t u : string) :
  (s ++ t)%string = (s ++ u)%string -> t = u.
Proof.
  induction s as [|a s IH]; simpl; intros H; [exact H|].
  injection H as H. exact (IH H).
Qed.

Section FurtherProperties.

Context `{NU : NetUtils}.

(** X1: each of the three constructors that can fail returns exactly one
    of a detector and an error, never both and never neither; the error
    of [NewDetectLocalByCIDR] is the parser's own, handed on as it is
    (nil when the parser succeeds). *)
Theorem constructors_return_detector_or_error :
  (forall cidr,
     one_nil (NewDetectLocalByCIDR cidr) /\
     snd (NewDetectLocalByCIDR cidr) = snd (ParseCIDRSloppy cidr)) /\
  (forall interfaceName,
     one_nil (NewDetectLocalByBridgeInterface interfaceName)) /\
  (forall interfacePrefix,
     one_nil (NewDetectLocalByInterfaceNamePrefix interfacePrefix)).
Proof.
  split; [|split].
  - intros cidr.
    destruct (NewDetectLocalByCIDR_cases cidr) as [(e & He & E)|[He E]];
      rewrite E, He; split; try reflexivity.
    + left. split; [reflexivity|discriminate].
    + right. split; [discriminate|reflexivity].
  - intros s. unfold NewDetectLocalByBridgeInterface.
    destruct (len s =? 0)%Z.
    + left. split; [reflexivity|discriminate].
    + right. split; [discriminate|reflexivity].
  - intros s. unfold NewDetectLocalByInterfaceNamePrefix.
    destruct (len s =? 0)%Z.
    + left. split; [reflexivity|discriminate].
    + right. split; [discriminate|reflexivity].
Qed.

(** X2: on every detector one of the four constructors returned,
    [IsImplemented] returns true if and only if [IfLocal] returns a
    non-empty sequence, and likewise for [IfNotLocal], [IfLocalNFT] and
    [IfNotLocalNFT]: a detector is implemented exactly when it has
    something to match. *)
Theorem implemented_iff_tokens (d : LocalTrafficDetector) :
  built d ->
  (returns IsImplemented d = true <-> returns IfLocal d <> []) /\
  (returns IsImplemented d = true <-> returns IfNotLocal d <> []) /\
  (returns IsImplemented d = true <-> returns IfLocalNFT d <> []) /\
  (returns IsImplemented d = true <-> returns IfNotLocalNFT d <> []).
Proof.
  intros [->|[cidr H|interfaceName H|interfacePrefix H]].
  - repeat split; intros H; try discriminate H; exfalso; apply H;
      reflexivity.
  - apply NewDetectLocalByCIDR_ok in H. subst d.
    repeat split; intros _; try reflexivity; discriminate.
  - apply NewDetectLocalByBridgeInterface_ok in H. subst d.
    repeat split; intros _; try reflexivity; discriminate.
  - apply NewDetectLocalByInterfaceNamePrefix_ok in H. subst d.
    repeat split; intros _; try reflexivity; discriminate.
Qed.

(** X3: a detector by interface-name prefix is, token for token, the
    bridge detector of the prefix with the wildcard appended: its legacy
    sequences are those of [NewDetectLocalByBridgeInterface] for the name
    prefix + "+", and its nft sequences those for the name prefix + "*".
    The bridge constructor accepts such names: it does not tell a
    wildcard from a character of the name. *)
Theorem prefix_is_bridge_of_wildcard (interfacePrefix : string)
    (d : LocalTrafficDetector) :
  NewDetectLocalByInterfaceNamePrefix interfacePrefix = (Some d, None) ->
  exists legacy nft,
    NewDetectLocalByBridgeInterface (interfacePrefix ++ "+") =
    (Some legacy, None) /\
    NewDetectLocalByBridgeInterface (interfacePrefix ++ "*") =
    (Some nft, None) /\
    returns IfLocal d = returns IfLocal legacy /\
    returns IfNotLocal d = returns IfNotLocal legacy /\
    returns IfLocalNFT d = returns IfLocalNFT nft /\
    returns IfNotLocalNFT d = returns IfNotLocalNFT nft.
Proof.
  intros H. apply NewDetectLocalByInterfaceNamePrefix_ok in H. subst d.
  unfold NewDetectLocalByBridgeInterface.
  rewrite !len_nonempty by (apply append_nonempty; discriminate).
  eexists. eexists. repeat split; reflexivity.
Qed.

(** Two inputs of one constructor that give the same legacy local
    sequence are the same. *)
Lemma construct_legacy_inj (k : kind) (input1 input2 : string)
    (d1 d2 : LocalTrafficDetector) :
  construct k input1 = (Some d1, None) ->
  construct k input2 = (Some d2, None) ->
  returns IfLocal d1 = returns IfLocal d2 ->
  input1 = input2.
Proof.
  destruct k; simpl; intros H1 H2 E.
  - apply NewDetectLocalByCIDR_ok in H1, H2. subst d1 d2.
    injection E as E. exact E.
  - apply NewDetectLocalByBridgeInterface_ok in H1, H2. subst d1 d2.
    injection E as E. exact E.
  - apply NewDetectLocalByInterfaceNamePrefix_ok in H1, H2. subst d1 d2.
    injection E as E. exact (append_char_inj _ _ _ E).
Qed.

(** The same for the nft local sequence. *)
Lemma construct_nft_inj (k : kind) (input1 input2 : string)
    (d1 d2 : LocalTrafficDetector) :
  construct k input1 = (Some d1, None) ->
  construct k input2 = (Some d2, None) ->
  returns IfLocalNFT d1 = returns IfLocalNFT d2 ->
  input1 = input2.
Proof.
  destruct k; simpl; intros H1 H2 E.
  - apply NewDetectLocalByCIDR_ok in H1, H2. subst d1 d2.
    injection E as _ E. exact E.
  - apply NewDetectLocalByBridgeInterface_ok in H1, H2. subst d1 d2.
    injection E as E. exact E.
  - apply NewDetectLocalByInterfaceNamePrefix_ok in H1, H2. subst d1 d2.
    injection E as E. exact (append_char_inj _ _ _ E).
Qed.

(** X4: the input of a constructor can be read off the detector: when
    two inputs of the same constructor give detectors with the same
    legacy local sequence, or with the same nft local sequence, the
    inputs are the same string. *)
Theorem construct_injective (k : kind) (input1 input2 : string)
    (d1 d2 : LocalTrafficDetector) :
  construct k input1 = (Some d1, None) ->
  construct k input2 = (Some d2, None) ->
  returns IfLocal d1 = returns IfLocal d2 \/
  returns IfLocalNFT d1 = returns IfLocalNFT d2 ->
  input1 = input2.
Proof.
  intros H1 H2 [E|E].
  - exact (construct_legacy_inj k _ _ _ _ H1 H2 E).
  - exact (construct_nft_inj k _ _ _ _ H1 H2 E).
Qed.

(** X5: when the parser rejects the empty string, no token of a detector
    that one of the three constructors returned is the empty string, in
    any of its four sequences. *)
Theorem tokens_are_not_empty (d : LocalTrafficDetector) :
  snd (ParseCIDRSloppy "") <> None ->
  constructed d ->
  no_empty_token (returns IfLocal d) /\
  no_empty_token (returns IfNotLocal d) /\
  no_empty_token (returns IfLocalNFT d) /\
  no_empty_token (returns IfNotLocalNFT d).
Proof.
  intros Hparse [cidr H|interfaceName H|interfacePrefix H].
  - assert (Hne : cidr <> "").
    { intros ->.
      destruct (NewDetectLocalByCIDR_cases "") as [(e & _ & E)|[He _]].
      - rewrite E in H. discriminate H.
      - exact (Hparse He). }
    apply NewDetectLocalByCIDR_ok in H. subst d.
    unfold no_empty_token, returns, family_keyword. simpl.
    destruct (IsIPv6CIDR (parsed_prefix cidr));
      repeat split; repeat constructor; discriminate || exact Hne.
  - assert (Hne : interfaceName <> "").
    { intros ->. discriminate H. }
    apply NewDetectLocalByBridgeInterface_ok in H. subst d.
    unfold no_empty_token, returns. simpl.
    repeat split; repeat constructor; discriminate || exact Hne.
  - apply NewDetectLocalByInterfaceNamePrefix_ok in H. subst d.
    unfold no_empty_token, returns. simpl.
    repeat split; repeat constructor;
      discriminate || (apply append_nonempty; discriminate).
Qed.

(** X6: the four token sequences of a detector tell which constructor
    made it and from which input: when detectors made by two of the
    three constructors, of the same kind or not, have the same four
    sequences, the constructors are the same and so are their inputs. *)
Theorem tokens_determine_kind_and_input (k1 k2 : kind)
    (input1 input2 : string) (d1 d2 : LocalTrafficDetector) :
  construct k1 input1 = (Some d1, None) ->
  construct k2 input2 = (Some d2, None) ->
  tokens_of d1 = tokens_of d2 ->
  k1 = k2 /\ input1 = input2.
Proof.
  intros H1 H2 E.
  assert (El : returns IfLocal d1 = returns IfLocal d2)
    by exact (f_equal legacy_local E).
  assert (En : returns IfLocalNFT d1 = returns IfLocalNFT d2)
    by exact (f_equal nft_local E).
  destruct k1, k2; simpl in H1, H2;
    try (split; [reflexivity|];
         first [ exact (construct_legacy_inj CIDR _ _ _ _ H1 H2 El)
               | exact (construct_legacy_inj BridgeInterface _ _ _ _ H1 H2 El)
               | exact (construct_legacy_inj InterfaceNamePrefix _ _ _ _
                          H1 H2 El) ]);
    exfalso;
    repeat match goal with
    | H : NewDetectLocalByCIDR _ = _ |- _ =>
        apply NewDetectLocalByCIDR_ok in H
    | H : NewDetectLocalByBridgeInterface _ = _ |- _ =>
        apply NewDetectLocalByBridgeInterface_ok in H
    | H : NewDetectLocalByInterfaceNamePrefix _ = _ |- _ =>
        apply NewDetectLocalByInterfaceNamePrefix_ok in H
    end;
    subst d1 d2; try discriminate El.
  - injection El as El. injection En as En. rewrite El in En.
    apply append_inj_r in En. discriminate En.
  - injection El as El. injection En as En. rewrite <- El in En.
    apply append_inj_r in En. discriminate En.
Qed.

End FurtherProperties.


(** A value of the interface that no constructor returns shows what the
    constructors add: it is implemented and has nothing to match. *)
Example unbuilt_detector :
  let d := ByCIDR {| detectLocalByCIDR.ifLocal := [];
                     detectLocalByCIDR.ifNotLocal := [];
                     detectLocalByCIDR.ifLocalNFT := [];
                     detectLocalByCIDR.ifNotLocalNFT := [] |} in
  returns IsImplemented d = true /\ returns IfLocal d = [].
Proof. split; reflexivity. Qed.

(** ** The further theorems at concrete inputs *)

Lemma implemented_iff_tokens_witness :
  (returns IsImplemented NewNoOpLocalDetector = true <->
   returns IfLocal NewNoOpLocalDetector <> []) /\
  (exists d,
     NewDetectLocalByBridgeInterface "cbr0" = (Some d, None) /\
     (returns IsImplemented d = true <-> returns IfLocal d <> [])).
Proof.
  split.
  - exact (proj1 (implemented_iff_tokens (NU := netutils_go) _
                    (built_NoOp _ eq_refl))).
  - eexists. split; [reflexivity|].
    exact (proj1 (implemented_iff_tokens (NU := netutils_go) _
                    (built_constructed _
                       (constructed_ByBridgeInterface _ "cbr0" eq_refl)))).
Defined.

Lemma prefix_is_bridge_of_wildcard_witness :
  exists d legacy nft,
    NewDetectLocalByInterfaceNamePrefix "veth" = (Some d, None) /\
    NewDetectLocalByBridgeInterface "veth+" = (Some legacy, None) /\
    NewDetectLocalByBridgeInterface "veth*" = (Some nft, None) /\
    returns IfLocal d = returns IfLocal legacy /\
    returns IfNotLocal d = returns IfNotLocal legacy /\
    returns IfLocalNFT d = returns IfLocalNFT nft /\
    returns IfNotLocalNFT d = returns IfNotLocalNFT nft.
Proof.
  eexists.
  destruct (prefix_is_bridge_of_wildcard "veth" _ eq_refl)
    as (legacy & nft & H).
  exists legacy, nft. split; [reflexivity|exact H].
Defined.

Lemma construct_injective_witness :
  exists d1 d2,
    construct (NU := netutils_go) CIDR "10.0.0.0/8" = (Some d1, None) /\
    construct (NU := netutils_go) CIDR "10.0.0.0/8" = (Some d2, None) /\
    returns IfLocal d1 = returns IfLocal d2 /\
    "10.0.0.0/8" = "10.0.0.0/8".
Proof.
  eexists. eexists. split; [reflexivity|]. split; [reflexivity|].
  split; [reflexivity|].
  exact (construct_injective (NU := netutils_go) CIDR
           "10.0.0.0/8" "10.0.0.0/8" _ _ eq_refl eq_refl
           (or_introl eq_refl)).
Defined.

Lemma tokens_are_not_empty_witness :
  snd (ParseCIDRSloppy (NetUtils := netutils_go) "") <> None /\
  exists d,
    NewDetectLocalByCIDR (NU := netutils_go) "fd00::/8" = (Some d, None) /\
    no_empty_token (returns IfLocal d) /\
    no_empty_token (returns IfNotLocal d) /\
    no_empty_token (returns IfLocalNFT d) /\
    no_empty_token (returns IfNotLocalNFT d).
Proof.
  assert (H : snd (ParseCIDRSloppy (NetUtils := netutils_go) "") <> None)
    by discriminate.
  split; [exact H|].
  eexists. split; [reflexivity|].
  exact (tokens_are_not_empty (NU := netutils_go) _ H
           (constructed_ByCIDR _ "fd00::/8" eq_refl)).
Defined.

Lemma tokens_determine_kind_and_input_witness :
  exists d1 d2,
    construct (NU := netutils_go) BridgeInterface "cbr0" = (Some d1, None) /\
    construct (NU := netutils_go) BridgeInterface "cbr0" = (Some d2, None) /\
    tokens_of d1 = tokens_of d2 /\
    BridgeInterface = BridgeInterface /\ "cbr0" = "cbr0".
Proof.
  eexists. eexists. split; [reflexivity|]. split; [reflexivity|].
  split; [reflexivity|].
  exact (tokens_determine_kind_and_input (NU := netutils_go)
           BridgeInterface BridgeInterface "cbr0" "cbr0" _ _
           eq_refl eq_refl eq_refl).
Defined.

